(** * The per-peer identify push loop (p2p/protocol/identify/peer_loop.go)

    A shallow embedding of [peerHandler] and its methods, and the properties
    of [sendPush], [openStream], [peerSupportsProtos], [start], [stop] and
    [newPeerHandler].

    One handler goroutine is run in isolation.  What the other goroutines,
    the host, the peerstore and the remote peer contribute is read from an
    environment [Env], indexed by a logical clock that advances at every
    call that leaves the handler; which case of a [select] fires is part of
    it.  The admission semaphore and the snapshot mutex are state: during a
    call they hold what the other goroutines left in them when it began.
    Calls are recorded, in order, in a trace.  A Go function that can block
    or panic yields an [outcome].  The event loop [loop] is spawned by
    [start], not run by it; it is embedded on its own, with fuel for its
    [for] statement and a scheduler for its [select]. *)

From Stdlib Require Import ZArith List String Bool Arith Lia.
Import ListNotations.
Open Scope string_scope.
Open Scope list_scope.

Module Identify.

(** ** Data *)

(** [peer.ID] and [protocol.ID] are Go string types. *)
Definition peerID := string.
Definition protocolID := string.

(** [ma.Multiaddr] and [record.Envelope] come from other packages; a
    snapshot only carries them, so each is represented by its encoded
    form. *)
Definition Multiaddr := string.
Definition Envelope := string.

(** [network.Conn]: a connection is known by its identity only. *)
Definition Conn := nat.

(** [network.Stream]: the stream's identity and the connection it runs on
    ([dp.Conn()]). *)
Record Stream := mkStream { stream_id : nat; stream_conn : Conn }.

Record identifySnapshot := mkSnapshot {
  protocols : list string;
  addrs : list Multiaddr;
  record : option Envelope
}.

(** Go's [error] values met in this file.  [errProtocolNotSupported] is the
    package variable; comparing with [==] is comparing with that one
    constructor.  [Errorf msg e] is [fmt.Errorf(msg + ": %w", e)]. *)
Inductive error :=
| errProtocolNotSupported
| Canceled
| DeadlineExceeded
| errOther (msg : string)
| Errorf (msg : string) (wrapped : error).

Definition is_errProtocolNotSupported (e : error) : bool :=
  match e with
  | errProtocolNotSupported => true
  | _ => false
  end.

(** Why a context is done: what [ctx.Err()] returns afterwards. *)
Inductive cause := byCancel | byDeadline.

Definition ctx_Err (why : cause) : error :=
  match why with
  | byCancel => Canceled
  | byDeadline => DeadlineExceeded
  end.

(** [context.Context], as the chain of wrappers that built it: the
    standard library's [WithCancel] and [WithTimeout], and
    [network.WithNoDial].  [WithCancel] carries the logical time of its
    creation, which tells two children of one parent apart. *)
Inductive Context :=
| Background
| WithCancel (parent : Context) (born : nat)
| WithTimeout (parent : Context) (d : Z)
| WithNoDial (parent : Context) (reason : string).

(** [context.CancelFunc]: named by the context it cancels. *)
Definition CancelFunc := Context.

(** [time.Duration] counts nanoseconds. *)
Definition Second : Z := 1000000000.

(** Modelled from the spec: [network.GetNoDial], the no-dial hint carried by
    a context, with its reason. *)
Fixpoint GetNoDial (ctx : Context) : bool * string :=
  match ctx with
  | Background => (false, "")
  | WithCancel p _ => GetNoDial p
  | WithTimeout p _ => GetNoDial p
  | WithNoDial _ reason => (true, reason)
  end.

(** The timeouts that bound a context, innermost first. *)
Fixpoint timeouts (ctx : Context) : list Z :=
  match ctx with
  | Background => []
  | WithCancel p _ => timeouts p
  | WithTimeout p d => d :: timeouts p
  | WithNoDial p _ => timeouts p
  end.

(** Modelled from the spec: [protocol.ConvertFromStrings], the same
    identifiers at type [protocol.ID]. *)
Definition ConvertFromStrings (ids : list string) : list protocolID :=
  map (fun s : string => s) ids.

(** A [chan struct{}]: only the number of buffered elements matters. *)
Record chan := mkChan { chan_cap : nat; chan_len : nat }.

Definition make_chan (n : nat) : chan := mkChan n 0.

(** [sync.RWMutex]; the zero value is unlocked. *)
Record RWMutex := mkRWMutex { writer : bool; readers : nat }.

Definition unlocked : RWMutex := mkRWMutex false 0.

Definition is_free (mu : RWMutex) : bool :=
  negb (writer mu) && Nat.eqb (readers mu) 0.

(** Which case of
    [select { case <-ph.ids.IdentifyWait(c): case <-ctx.Done(): }]
    fires: the identify exchange on [c] completed, the context is done, or
    neither ever happens. *)
Inductive selected :=
| SelIdentified
| SelDone (why : cause)
| SelNever.

(** The two places that wait on the identify-completion signal. *)
Inductive site := InOpenStream | InPeerSupportsProtos.

Inductive event :=
| EvGetSnapshot (s : identifySnapshot)
| EvConnsToPeer (p : peerID) (cs : list Conn)
| EvIdentifyWait (at_site : site) (c : Conn) (r : selected)
| EvSupportsProtocols (p : peerID) (protos : list string)
    (sup : list protocolID) (err : option error)
| EvSemSend
| EvSemRecv
| EvNewStream (ctx : Context) (p : peerID) (protos : list protocolID)
    (r : Stream + error)
| EvCancel (ctx : Context)
| EvLock
| EvUnlock
| EvSetSnapshot (s : identifySnapshot)
| EvWrite (c : Conn) (s : identifySnapshot) (dp : Stream) (err : option error)
| EvReset (dp : Stream)
| EvClose (dp : Stream)
| EvDebugw (msg : string) (p : peerID)
| EvGo (ctx : Context) (onExit : string).

(** What the handler finds outside itself, at each logical time: the rest of
    the identify service ([getSnapshot], [IdentifyWait],
    [writeChunkedIdentifyMsg], the constant [IDPush]), the host's network,
    peerstore and [NewStream], and the scheduler's choice in a [select]. *)
Record Env := mkEnv {
  IDPush : string;
  getSnapshot : nat -> identifySnapshot;
  ConnsToPeer : nat -> peerID -> list Conn;
  IdentifyWait : nat -> Context -> Conn -> selected;
  SupportsProtocols :
    nat -> peerID -> list string -> list protocolID * option error;
  NewStream : nat -> Context -> peerID -> list protocolID -> Stream + error;
  writeChunkedIdentifyMsg :
    nat -> Conn -> identifySnapshot -> Stream -> option error
}.

(** [idService], as one handler uses it: the admission semaphore, and the
    clock and trace of the calls made through it. *)
Record idService := mkService {
  pushSemaphore : chan;
  clock : nat;
  trace : list event
}.

(** [peerHandler].  Its [ids] pointer is the [ids] component of [State]. *)
Record peerHandler := mkHandler {
  cancel : option CancelFunc;
  pid : peerID;
  snapshotMu : RWMutex;
  snapshot : identifySnapshot;
  pushCh : chan
}.

Record State := mkState { ph : peerHandler; ids : idService }.

(** ** Outcomes and sequencing *)

Inductive outcome (S A : Type) : Type :=
| Returned (a : A) (s : S)
| Panicked (v : string) (s : S)
| Blocked (s : S).

Arguments Returned {S A} a s.
Arguments Panicked {S A} v s.
Arguments Blocked {S A} s.

Definition M (S A : Type) : Type := S -> outcome S A.

Definition ret {S A} (a : A) : M S A := fun s => Returned a s.

Definition bind {S A B} (m : M S A) (k : A -> M S B) : M S B :=
  fun s =>
    match m s with
    | Returned a s' => k a s'
    | Panicked v s' => Panicked v s'
    | Blocked s' => Blocked s'
    end.

Notation "x <- m ;; k" := (bind m (fun x => k))
  (at level 61, m at next level, right associativity).
Notation "m ;;; k" := (bind m (fun _ => k))
  (at level 61, right associativity).

Definition panic {S A} (v : string) : M S A := fun s => Panicked v s.
Definition block {S A} : M S A := fun s => Blocked s.

(** The state an execution stops in, and the value it returns. *)
Definition final {S A} (o : outcome S A) : S :=
  match o with
  | Returned _ s => s
  | Panicked _ s => s
  | Blocked s => s
  end.

Definition value {S A} (o : outcome S A) : option A :=
  match o with
  | Returned a _ => Some a
  | _ => None
  end.

(** Run a computation of the service inside a handler's state. *)
Definition on_ids {A} (m : M idService A) : M State A :=
  fun st =>
    match m (ids st) with
    | Returned a i => Returned a (mkState (ph st) i)
    | Panicked v i => Panicked v (mkState (ph st) i)
    | Blocked i => Blocked (mkState (ph st) i)
    end.

Definition get_ph : M State peerHandler := fun st => Returned (ph st) st.

Definition put_ph (h : peerHandler) : M State unit :=
  fun st => Returned tt (mkState h (ids st)).

(** ** The service's primitives *)

Definition emit (e : event) : M idService unit :=
  fun i => Returned tt (mkService (pushSemaphore i) (clock i) (trace i ++ [e])).

(** Ask the environment at the current time, and let time pass. *)
Definition ask {A} (q : nat -> A) : M idService A :=
  fun i => Returned (q (clock i))
             (mkService (pushSemaphore i) (S (clock i)) (trace i)).

(** [ph.ids.pushSemaphore <- struct{}{}]: blocks while the buffer is full. *)
Definition sem_send : M idService unit :=
  fun i =>
    let c := pushSemaphore i in
    if Nat.ltb (chan_len c) (chan_cap c)
    then Returned tt (mkService (mkChan (chan_cap c) (S (chan_len c)))
                                (clock i) (trace i ++ [EvSemSend]))
    else Blocked i.

(** [<-ph.ids.pushSemaphore]: blocks while the buffer is empty. *)
Definition sem_recv : M idService unit :=
  fun i =>
    let c := pushSemaphore i in
    match chan_len c with
    | S n => Returned tt (mkService (mkChan (chan_cap c) n)
                                    (clock i) (trace i ++ [EvSemRecv]))
    | O => Blocked i
    end.

Section Handler.

Variable env : Env.

Definition ids_getSnapshot : M idService identifySnapshot :=
  s <- ask (getSnapshot env) ;;
  emit (EvGetSnapshot s) ;;;
  ret s.

Definition host_ConnsToPeer (p : peerID) : M idService (list Conn) :=
  cs <- ask (fun t => ConnsToPeer env t p) ;;
  emit (EvConnsToPeer p cs) ;;;
  ret cs.

(** One [select] between [IdentifyWait(c)] and [ctx.Done()]: [None] when
    the identify case fired, [Some why] when the context's did. *)
Definition select_IdentifyWait (at_site : site) (ctx : Context) (c : Conn)
  : M idService (option cause) :=
  r <- ask (fun t => IdentifyWait env t ctx c) ;;
  match r with
  | SelIdentified => emit (EvIdentifyWait at_site c r) ;;; ret None
  | SelDone why => emit (EvIdentifyWait at_site c r) ;;; ret (Some why)
  | SelNever => block
  end.

(** [for _, c := range conns { select { ... } }], left at the first
    connection on which the context's case fires. *)
Fixpoint wait_identified (at_site : site) (ctx : Context) (conns : list Conn)
  : M idService (option cause) :=
  match conns with
  | [] => ret None
  | c :: rest =>
      r <- select_IdentifyWait at_site ctx c ;;
      match r with
      | None => wait_identified at_site ctx rest
      | Some why => ret (Some why)
      end
  end.

Definition pstore_SupportsProtocols (p : peerID) (protos : list string)
  : M idService (list protocolID * option error) :=
  r <- ask (fun t => SupportsProtocols env t p protos) ;;
  emit (EvSupportsProtocols p protos (fst r) (snd r)) ;;;
  ret r.

Definition host_NewStream (ctx : Context) (p : peerID)
  (protos : list protocolID) : M idService (Stream + error) :=
  r <- ask (fun t => NewStream env t ctx p protos) ;;
  emit (EvNewStream ctx p protos r) ;;;
  ret r.

Definition ids_writeChunkedIdentifyMsg (c : Conn) (s : identifySnapshot)
  (dp : Stream) : M idService (option error) :=
  r <- ask (fun t => writeChunkedIdentifyMsg env t c s dp) ;;
  emit (EvWrite c s dp r) ;;;
  ret r.

(** [context.WithCancel(ctx)]. *)
Definition context_WithCancel (ctx : Context)
  : M idService (Context * CancelFunc) :=
  t <- ask (fun t => t) ;;
  ret (WithCancel ctx t, WithCancel ctx t).

(** Calling a [CancelFunc]. *)
Definition call_cancel (c : CancelFunc) : M idService unit :=
  emit (EvCancel c).

(** ** The handler *)

(** [ph.snapshotMu.Lock()]: blocks while a reader or a writer holds it. *)
Definition snapshotMu_Lock : M State unit :=
  fun st =>
    let h := ph st in
    if is_free (snapshotMu h)
    then Returned tt
           (mkState (mkHandler (cancel h) (pid h)
                               (mkRWMutex true (readers (snapshotMu h)))
                               (snapshot h) (pushCh h))
                    (mkService (pushSemaphore (ids st)) (clock (ids st))
                               (trace (ids st) ++ [EvLock])))
    else Blocked st.

(** [ph.snapshotMu.Unlock()]: a fatal error on a mutex not locked for
    writing. *)
Definition snapshotMu_Unlock : M State unit :=
  fun st =>
    let h := ph st in
    if writer (snapshotMu h)
    then Returned tt
           (mkState (mkHandler (cancel h) (pid h)
                               (mkRWMutex false (readers (snapshotMu h)))
                               (snapshot h) (pushCh h))
                    (mkService (pushSemaphore (ids st)) (clock (ids st))
                               (trace (ids st) ++ [EvUnlock])))
    else Panicked "sync: Unlock of unlocked RWMutex" st.

(** [ph.snapshot = s]. *)
Definition set_snapshot (s : identifySnapshot) : M State unit :=
  h <- get_ph ;;
  put_ph (mkHandler (cancel h) (pid h) (snapshotMu h) s (pushCh h)) ;;;
  on_ids (emit (EvSetSnapshot s)).

(** [ph.cancel = c]. *)
Definition set_cancel (c : option CancelFunc) : M State unit :=
  h <- get_ph ;;
  put_ph (mkHandler c (pid h) (snapshotMu h) (snapshot h) (pushCh h)).

Definition newPeerHandler (p : peerID) : M idService peerHandler :=
  s <- ids_getSnapshot ;;
  ret (mkHandler None p unlocked s (make_chan 1)).

(** [start]; the goroutine [ph.loop(ctx, onExit)] is spawned, not run. *)
Definition start (ctx : Context) (onExit : string) : M State unit :=
  h <- get_ph ;;
  match cancel h with
  | Some _ => panic "peer handler already running"
  | None =>
      cc <- on_ids (context_WithCancel ctx) ;;
      set_cancel (Some (snd cc)) ;;;
      on_ids (emit (EvGo (fst cc) onExit))
  end.

Definition stop : M State (option error) :=
  h <- get_ph ;;
  match cancel h with
  | Some c =>
      on_ids (call_cancel c) ;;;
      set_cancel None
  | None => ret tt
  end ;;;
  ret None.

Definition peerSupportsProtos (ctx : Context) (protos : list string)
  : M State bool :=
  h <- get_ph ;;
  conns <- on_ids (host_ConnsToPeer (pid h)) ;;
  r <- on_ids (wait_identified InPeerSupportsProtos ctx conns) ;;
  match r with
  | Some _ => ret false
  | None =>
      se <- on_ids (pstore_SupportsProtocols (pid h) protos) ;;
      match snd se with
      | None => if Nat.eqb (List.length (fst se)) 0 then ret false else ret true
      | Some _ => ret true
      end
  end.

(** [openStream].  The two deferred calls run, last deferred first, on both
    returns that follow them. *)
Definition openStream (ctx : Context) (protos : list string)
  : M State (Stream + error) :=
  h <- get_ph ;;
  conns <- on_ids (host_ConnsToPeer (pid h)) ;;
  r <- on_ids (wait_identified InOpenStream ctx conns) ;;
  match r with
  | Some why => ret (inr (ctx_Err why))
  | None =>
      ok <- peerSupportsProtos ctx protos ;;
      if negb ok then ret (inr errProtocolNotSupported)
      else
        on_ids sem_send ;;;
        let ctx1 := WithTimeout ctx (30 * Second) in
        let ctx2 := WithNoDial ctx1 "should already have connection" in
        s <- on_ids (host_NewStream ctx2 (pid h) (ConvertFromStrings protos)) ;;
        on_ids (call_cancel ctx1) ;;;
        on_ids sem_recv ;;;
        match s with
        | inr err => ret (inr err)
        | inl dp => ret (inl dp)
        end
  end.

(** [sendPush].  The deferred [dp.Close()] runs on both returns that follow
    it. *)
Definition sendPush (ctx : Context) : M State (option error) :=
  h <- get_ph ;;
  r <- openStream ctx [IDPush env] ;;
  match r with
  | inr err =>
      if is_errProtocolNotSupported err
      then
        on_ids (emit (EvDebugw
          "not sending push as peer does not support protocol" (pid h))) ;;;
        ret None
      else ret (Some (Errorf "failed to open push stream" err))
  | inl dp =>
      snap <- on_ids ids_getSnapshot ;;
      snapshotMu_Lock ;;;
      set_snapshot snap ;;;
      snapshotMu_Unlock ;;;
      werr <- on_ids (ids_writeChunkedIdentifyMsg (stream_conn dp) snap dp) ;;
      match werr with
      | Some err =>
          on_ids (emit (EvReset dp)) ;;;
          on_ids (emit (EvClose dp)) ;;;
          ret (Some (Errorf "failed to send push message" err))
      | None =>
          on_ids (emit (EvClose dp)) ;;;
          ret None
      end
  end.

(** The events an execution adds to the trace. *)
Definition events {A} (m : M State A) (st : State) : list event :=
  skipn (List.length (trace (ids st))) (trace (ids (final (m st)))).

End Handler.

(** ** The event loop

    [loop] runs for ever unless its context ends it, so it is given fuel:
    the number of times its [select] may be entered.  What the loop logs
    and the call of [onExit] are kept in a log of its own, beside the
    handler's state. *)

(** Which case of [select { case <-ph.pushCh: case <-ctx.Done(): }] fires:
    a marker is received, the context is done, or neither ever happens. *)
Inductive loop_case :=
| LoopPush
| LoopDone
| LoopNever.

Inductive loop_event :=
| RecvPush
| Warnw (msg : string) (p : peerID) (err : error)
| OnExit (onExit : string).

Record LoopState := mkLoop { handler_state : State; loop_log : list loop_event }.

(** Run a method of the handler inside the loop. *)
Definition on_state {A} (m : M State A) : M LoopState A :=
  fun l =>
    match m (handler_state l) with
    | Returned a st => Returned a (mkLoop st (loop_log l))
    | Panicked v st => Panicked v (mkLoop st (loop_log l))
    | Blocked st => Blocked (mkLoop st (loop_log l))
    end.

Definition note (e : loop_event) : M LoopState unit :=
  fun l => Returned tt (mkLoop (handler_state l) (loop_log l ++ [e])).

(** [<-ph.pushCh], once its case fired: a buffered marker leaves the
    buffer; with none buffered, the marker came straight from a sender. *)
Definition pushCh_recv : M State unit :=
  h <- get_ph ;;
  put_ph (mkHandler (cancel h) (pid h) (snapshotMu h) (snapshot h)
                    (mkChan (chan_cap (pushCh h))
                            (Nat.pred (chan_len (pushCh h))))).

Section Loop.

Variable env : Env.

(** The scheduler's choice in the loop's [select], at each logical time. *)
Variable sched : nat -> Context -> loop_case.

(** The [for] statement: [true] when it was left by [return], [false] when
    the fuel ran out with the loop still going. *)
Fixpoint loop_for (fuel : nat) (ctx : Context) : M LoopState bool :=
  match fuel with
  | O => ret false
  | S fuel' =>
      c <- on_state (on_ids (ask (fun t => sched t ctx))) ;;
      match c with
      | LoopPush =>
          on_state pushCh_recv ;;;
          note RecvPush ;;;
          err <- on_state (sendPush env ctx) ;;
          match err with
          | Some e =>
              h <- on_state get_ph ;;
              note (Warnw "failed to send Identify Push" (pid h) e)
          | None => ret tt
          end ;;;
          loop_for fuel' ctx
      | LoopDone => ret true
      | LoopNever => block
      end
  end.

(** [loop]: the deferred [onExit()] runs when the [for] statement is left.
    A panic would run it too, but [sendPush] does not panic. *)
Definition loop (fuel : nat) (ctx : Context) (onExit : string)
  : M LoopState bool :=
  left <- loop_for fuel ctx ;;
  if left then note (OnExit onExit) ;;; ret true else ret false.

End Loop.

(** What a run of the loop adds to its log. *)
Definition logged {A} (m : M LoopState A) (l : LoopState) : list loop_event :=
  skipn (List.length (loop_log l)) (loop_log (final (m l))).

(** How often the log records a call of [onExit], a received marker, a
    warning. *)
Fixpoint exits (log : list loop_event) : nat :=
  match log with
  | [] => 0
  | OnExit _ :: rest => S (exits rest)
  | _ :: rest => exits rest
  end.

Fixpoint received (log : list loop_event) : nat :=
  match log with
  | [] => 0
  | RecvPush :: rest => S (received rest)
  | _ :: rest => received rest
  end.

Fixpoint warnings (log : list loop_event) : list error :=
  match log with
  | [] => []
  | Warnw _ _ e :: rest => e :: warnings rest
  | _ :: rest => warnings rest
  end.

(** ** Scenarios

    Concrete environments: a peer [QmPeer] whose handler is created at
    time 0 with snapshot [S0]; afterwards the local identity is [S1]. *)

Definition A1 : Multiaddr := "/ip4/10.0.0.1/tcp/4001".
Definition A2 : Multiaddr := "/ip4/10.0.0.2/tcp/4001".
Definition S0 : identifySnapshot := mkSnapshot ["/x"] [A1] None.
Definition S1 : identifySnapshot := mkSnapshot ["/x"] [A1; A2] None.
Definition push_id : string := "/ipfs/id/push/1.0.0".
Definition dp7 : Stream := mkStream 1 7.

(** The environment of one push: the connections seen by [openStream] (at
    time 0) and later by [peerSupportsProtos], the outcome of each wait, the
    peerstore's answer, the host's and the writer's. *)
Definition scenario (conns1 conns2 : list Conn)
  (sel : nat -> Conn -> selected)
  (sup : list protocolID * option error)
  (ns : Stream + error) (w : option error) : Env :=
  mkEnv push_id
        (fun t => if Nat.eqb t 0 then S0 else S1)
        (fun t _ => if Nat.eqb t 0 then conns1 else conns2)
        (fun t _ c => sel t c)
        (fun _ _ _ => sup)
        (fun _ _ _ _ => ns)
        (fun _ _ _ _ => w).

Definition all_identified : nat -> Conn -> selected := fun _ _ => SelIdentified.

(** The peer is identified on its one connection and supports the push. *)
Definition env_ok : Env :=
  scenario [7] [7] all_identified ([push_id], None) (inl dp7) None.

(** The write fails. *)
Definition env_write_fails : Env :=
  scenario [7] [7] all_identified ([push_id], None) (inl dp7)
           (Some (errOther "stream reset")).

(** The peerstore knows the peer does not support the push. *)
Definition env_unsupported : Env :=
  scenario [7] [7] all_identified ([], None) (inl dp7) None.

(** The peerstore lookup fails. *)
Definition env_lookup_error : Env :=
  scenario [7] [7] all_identified ([], Some (errOther "invalid peer ID"))
           (inl dp7) None.

(** The negotiation runs into its deadline. *)
Definition env_timeout : Env :=
  scenario [7] [7] all_identified ([push_id], None) (inr DeadlineExceeded) None.

(** The context is cancelled while the handler waits on connection 7. *)
Definition env_cancelled : Env :=
  scenario [7] [7] (fun _ _ => SelDone byCancel) ([push_id], None)
           (inl dp7) None.

(** Connection 7 is identified; connection 8 is established after
    [openStream] listed the connections, and the context is cancelled while
    [peerSupportsProtos] waits on it. *)
Definition env_cancel_in_peerSupportsProtos : Env :=
  scenario [7] [7; 8]
           (fun _ c => if Nat.eqb c 8 then SelDone byCancel else SelIdentified)
           ([push_id], None) (inl dp7) None.

(** A stopped handler for [QmPeer] with last sent snapshot [S0], and a
    service with two semaphore slots, one of them taken by another handler. *)
Definition h0 : peerHandler := mkHandler None "QmPeer" unlocked S0 (make_chan 1).
Definition ids0 : idService := mkService (mkChan 2 1) 0 [].
Definition st0 : State := mkState h0 ids0.

(** The same handler, running. *)
Definition st_running : State :=
  mkState (mkHandler (Some (WithCancel Background 0)) "QmPeer" unlocked S0
                     (make_chan 1))
          (mkService (mkChan 2 1) 1 []).

(** What the loop keeps of the handler's state: all but the last sent
    snapshot, the number of buffered markers, which never grows, the clock
    and the trace. *)
Definition kept (st st' : State) : Prop :=
  pushSemaphore (ids st') = pushSemaphore (ids st) /\
  cancel (ph st') = cancel (ph st) /\
  pid (ph st') = pid (ph st) /\
  snapshotMu (ph st') = snapshotMu (ph st) /\
  chan_cap (pushCh (ph st')) = chan_cap (pushCh (ph st)) /\
  chan_len (pushCh (ph st')) <= chan_len (pushCh (ph st)) /\
  clock (ids st) <= clock (ids st').

(** The state in which [sendPush] is entered: the [select] has been
    answered and a marker received. *)
Definition marker_taken (st : State) : State :=
  mkState (mkHandler (cancel (ph st)) (pid (ph st)) (snapshotMu (ph st))
                     (snapshot (ph st))
                     (mkChan (chan_cap (pushCh (ph st)))
                             (Nat.pred (chan_len (pushCh (ph st))))))
          (mkService (pushSemaphore (ids st)) (S (clock (ids st)))
                     (trace (ids st))).

(** The two errors of [sendPush]. *)
Definition push_error (e : error) : Prop :=
  exists w, e = Errorf "failed to open push stream" w \/
            e = Errorf "failed to send push message" w.

(** The loop's scheduler: markers keep coming; a marker, then the context
    is done; the context is done at once. *)
Definition sched_pushes : nat -> Context -> loop_case := fun _ _ => LoopPush.

Definition sched_push_then_done : nat -> Context -> loop_case :=
  fun t _ => if Nat.eqb t 0 then LoopPush else LoopDone.

(** The handler [st0] inside its loop, with one marker buffered. *)
Definition l0 : LoopState :=
  mkLoop (mkState (mkHandler (Some (WithCancel Background 0)) "QmPeer"
                             unlocked S0 (mkChan 1 1))
                  ids0)
         [].


(** ** Shapes of executions

    Every execution leaves the handler's state as it was apart from what it
    stores, the semaphore as it found it, and adds to the clock and to the
    trace.  The predicates below list, function by function, the traces an
    execution can add and the result that goes with each. *)

Definition adv (i : idService) (n : nat) (evs : list event) : idService :=
  mkService (pushSemaphore i) (n + clock i) (trace i ++ evs).

Definition advance (st : State) (n : nat) (evs : list event) : State :=
  mkState (ph st) (adv (ids st) n evs).

(** [Some a]: returned [a]; [None]: blocked for ever. *)
Definition outcome_of {S A} (r : option A) (s : S) : outcome S A :=
  match r with
  | Some a => Returned a s
  | None => Blocked s
  end.

Definition identified (s : site) (cs : list Conn) : list event :=
  map (fun c => EvIdentifyWait s c SelIdentified) cs.

Inductive waited (s : site) : list Conn -> option (option cause) ->
  list event -> Prop :=
| waited_all cs :
    waited s cs (Some None) (identified s cs)
| waited_done pre c post why :
    waited s (pre ++ c :: post) (Some (Some why))
           (identified s pre ++ [EvIdentifyWait s c (SelDone why)])
| waited_never pre c post :
    waited s (pre ++ c :: post) None (identified s pre).

Inductive psp_run (p : peerID) (protos : list string) :
  option bool -> list event -> Prop :=
| psp_never cs w :
    waited InPeerSupportsProtos cs None w ->
    psp_run p protos None (EvConnsToPeer p cs :: w)
| psp_done cs w why :
    waited InPeerSupportsProtos cs (Some (Some why)) w ->
    psp_run p protos (Some false) (EvConnsToPeer p cs :: w)
| psp_empty cs w :
    waited InPeerSupportsProtos cs (Some None) w ->
    psp_run p protos (Some false)
            (EvConnsToPeer p cs :: w ++ [EvSupportsProtocols p protos [] None])
| psp_some cs w x sup :
    waited InPeerSupportsProtos cs (Some None) w ->
    psp_run p protos (Some true)
            (EvConnsToPeer p cs :: w ++
             [EvSupportsProtocols p protos (x :: sup) None])
| psp_lookup_error cs w sup e :
    waited InPeerSupportsProtos cs (Some None) w ->
    psp_run p protos (Some true)
            (EvConnsToPeer p cs :: w ++
             [EvSupportsProtocols p protos sup (Some e)]).

(** The context [openStream] hands to [NewStream], and the one its deferred
    [cancel] ends. *)
Definition timeout_ctx (ctx : Context) : Context :=
  WithTimeout ctx (30 * Second).

Definition newstream_ctx (ctx : Context) : Context :=
  WithNoDial (timeout_ctx ctx) "should already have connection".

Definition negotiation (p : peerID) (ctx : Context) (protos : list string)
  (r : Stream + error) : list event :=
  [EvSemSend;
   EvNewStream (newstream_ctx ctx) p (ConvertFromStrings protos) r;
   EvCancel (timeout_ctx ctx);
   EvSemRecv].

Inductive open_run (p : peerID) (ctx : Context) (protos : list string) :
  option (Stream + error) -> list event -> Prop :=
| open_never cs w :
    waited InOpenStream cs None w ->
    open_run p ctx protos None (EvConnsToPeer p cs :: w)
| open_done cs w why :
    waited InOpenStream cs (Some (Some why)) w ->
    open_run p ctx protos (Some (inr (ctx_Err why))) (EvConnsToPeer p cs :: w)
| open_check_never cs w e2 :
    waited InOpenStream cs (Some None) w ->
    psp_run p protos None e2 ->
    open_run p ctx protos None (EvConnsToPeer p cs :: w ++ e2)
| open_unsupported cs w e2 :
    waited InOpenStream cs (Some None) w ->
    psp_run p protos (Some false) e2 ->
    open_run p ctx protos (Some (inr errProtocolNotSupported))
             (EvConnsToPeer p cs :: w ++ e2)
| open_sem_full cs w e2 :
    waited InOpenStream cs (Some None) w ->
    psp_run p protos (Some true) e2 ->
    open_run p ctx protos None (EvConnsToPeer p cs :: w ++ e2)
| open_negotiated cs w e2 r :
    waited InOpenStream cs (Some None) w ->
    psp_run p protos (Some true) e2 ->
    open_run p ctx protos (Some r)
             (EvConnsToPeer p cs :: w ++ e2 ++ negotiation p ctx protos r).

(** The handler after a push stored [s]: the mutex was taken and given
    back. *)
Definition stored (h : peerHandler) (s : identifySnapshot) : peerHandler :=
  mkHandler (cancel h) (pid h) (mkRWMutex false (readers (snapshotMu h))) s
            (pushCh h).

Definition transmission (snap : identifySnapshot) (dp : Stream)
  (werr : option error) : list event :=
  [EvGetSnapshot snap; EvLock; EvSetSnapshot snap; EvUnlock;
   EvWrite (stream_conn dp) snap dp werr].

Definition debug_unsupported (p : peerID) : event :=
  EvDebugw "not sending push as peer does not support protocol" p.

Inductive push_run (h : peerHandler) (ctx : Context) (push : string) :
  option (option error) -> list event -> peerHandler -> Prop :=
| push_never e1 :
    open_run (pid h) ctx [push] None e1 ->
    push_run h ctx push None e1 h
| push_unsupported e1 :
    open_run (pid h) ctx [push] (Some (inr errProtocolNotSupported)) e1 ->
    push_run h ctx push (Some None) (e1 ++ [debug_unsupported (pid h)]) h
| push_open_failed e1 err :
    open_run (pid h) ctx [push] (Some (inr err)) e1 ->
    is_errProtocolNotSupported err = false ->
    push_run h ctx push
             (Some (Some (Errorf "failed to open push stream" err))) e1 h
| push_lock_never e1 dp snap :
    open_run (pid h) ctx [push] (Some (inl dp)) e1 ->
    is_free (snapshotMu h) = false ->
    push_run h ctx push None (e1 ++ [EvGetSnapshot snap]) h
| push_sent e1 dp snap :
    open_run (pid h) ctx [push] (Some (inl dp)) e1 ->
    is_free (snapshotMu h) = true ->
    push_run h ctx push (Some None)
             (e1 ++ transmission snap dp None ++ [EvClose dp])
             (stored h snap)
| push_write_failed e1 dp snap e :
    open_run (pid h) ctx [push] (Some (inl dp)) e1 ->
    is_free (snapshotMu h) = true ->
    push_run h ctx push
             (Some (Some (Errorf "failed to send push message" e)))
             (e1 ++ transmission snap dp (Some e) ++ [EvReset dp; EvClose dp])
             (stored h snap).

(** ** Reading a trace *)

(** The streams the host opened. *)
Fixpoint opened (evs : list event) : list Stream :=
  match evs with
  | [] => []
  | EvNewStream _ _ _ (inl dp) :: rest => dp :: opened rest
  | _ :: rest => opened rest
  end.

(** The streams written to. *)
Fixpoint written (evs : list event) : list Stream :=
  match evs with
  | [] => []
  | EvWrite _ _ dp _ :: rest => dp :: written rest
  | _ :: rest => written rest
  end.

(** How many semaphore slots were taken, and how many given back. *)
Fixpoint acquires (evs : list event) : nat :=
  match evs with
  | [] => 0
  | EvSemSend :: rest => S (acquires rest)
  | _ :: rest => acquires rest
  end.

Fixpoint releases (evs : list event) : nat :=
  match evs with
  | [] => 0
  | EvSemRecv :: rest => S (releases rest)
  | _ :: rest => releases rest
  end.

(** Whether the peerstore was asked. *)
Fixpoint lookups (evs : list event) : nat :=
  match evs with
  | [] => 0
  | EvSupportsProtocols _ _ _ _ :: rest => S (lookups rest)
  | _ :: rest => lookups rest
  end.

(** A trace in which no stream is opened or written to and the semaphore
    is left alone. *)
Definition quiet (evs : list event) : Prop :=
  opened evs = [] /\ written evs = [] /\ acquires evs = 0 /\
  releases evs = 0.

(** The streams closed, and the streams reset. *)
Fixpoint closed (evs : list event) : list Stream :=
  match evs with
  | [] => []
  | EvClose dp :: rest => dp :: closed rest
  | _ :: rest => closed rest
  end.

Fixpoint resets (evs : list event) : list Stream :=
  match evs with
  | [] => []
  | EvReset dp :: rest => dp :: resets rest
  | _ :: rest => resets rest
  end.

(** The calls of [NewStream]. *)
Fixpoint negotiations (evs : list event) : nat :=
  match evs with
  | [] => 0
  | EvNewStream _ _ _ _ :: rest => S (negotiations rest)
  | _ :: rest => negotiations rest
  end.

(** The events of waiting and asking: listing connections, waiting for
    identify, asking the peerstore. *)
Definition passive (e : event) : bool :=
  match e with
  | EvConnsToPeer _ _ | EvIdentifyWait _ _ _ | EvSupportsProtocols _ _ _ _ =>
      true
  | _ => false
  end.

(** Whether a channel has room for one more element. *)
Definition has_room (c : chan) : bool := Nat.ltb (chan_len c) (chan_cap c).

(** [errors.Unwrap]. *)
Definition Unwrap (e : error) : option error :=
  match e with
  | Errorf _ w => Some w
  | _ => None
  end.

(** The answer of [peerSupportsProtos] to a peerstore result. *)
Definition supported (sup : list protocolID) (err : option error) : bool :=
  match err with
  | None => negb (Nat.eqb (List.length sup) 0)
  | Some _ => true
  end.

(** ** Basic facts *)

Lemma adv_0 i : adv i 0 [] = i.
Proof. destruct i; unfold adv; simpl. now rewrite app_nil_r. Qed.

Lemma adv_adv i n e m f : adv (adv i n e) m f = adv i (m + n) (e ++ f).
Proof.
  unfold adv; simpl. now rewrite Nat.add_assoc, app_assoc.
Qed.

Lemma advance_0 st : advance st 0 [] = st.
Proof. destruct st; unfold advance; simpl. now rewrite adv_0. Qed.

Lemma advance_advance st n e m f :
  advance (advance st n e) m f = advance st (m + n) (e ++ f).
Proof. unfold advance; simpl. now rewrite adv_adv. Qed.

Lemma skipn_length_app {A} (l k : list A) : skipn (List.length l) (l ++ k) = k.
Proof. induction l; simpl; auto. Qed.

Lemma events_advance {A} (m : M State A) st h n evs :
  final (m st) = mkState h (adv (ids st) n evs) ->
  events m st = evs.
Proof.
  intro H. unfold events. rewrite H. simpl. apply skipn_length_app.
Qed.

Lemma final_outcome_of {S A} (r : option A) (s : S) : final (outcome_of r s) = s.
Proof. now destruct r. Qed.

Lemma bind_Returned {S A B} (m : M S A) (k : A -> M S B) s a s' :
  m s = Returned a s' -> bind m k s = k a s'.
Proof. unfold bind. now intros ->. Qed.

Lemma bind_outcome_of {S A B} (m : M S A) (k : A -> M S B) s r s' :
  m s = outcome_of r s' ->
  bind m k s = match r with Some a => k a s' | None => Blocked s' end.
Proof. unfold bind. intros ->. now destruct r. Qed.

Lemma on_ids_outcome_of {A} (m : M idService A) st r n evs :
  m (ids st) = outcome_of r (adv (ids st) n evs) ->
  on_ids m st = outcome_of r (advance st n evs).
Proof. unfold on_ids. intros ->. now destruct r. Qed.

Lemma on_ids_emit e st : on_ids (emit e) st = Returned tt (advance st 0 [e]).
Proof. reflexivity. Qed.

(** ** Traces of the shapes above *)

Ltac split_In :=
  repeat match goal with
  | H : In _ (_ ++ _) |- _ => apply in_app_or in H; destruct H as [H|H]
  | H : In _ (_ :: _) |- _ => destruct H as [H|H]
  | H : In _ [] |- _ => destruct H
  end.

Ltac trace_app a :=
  induction a as [|[] a IH]; simpl; try congruence;
  match goal with
  | r : (Stream + error)%type |- _ => destruct r; simpl; congruence
  end.

Lemma opened_app a b : opened (a ++ b) = opened a ++ opened b.
Proof. trace_app a. Qed.

Lemma written_app a b : written (a ++ b) = written a ++ written b.
Proof. trace_app a. Qed.

Lemma acquires_app a b : acquires (a ++ b) = acquires a + acquires b.
Proof. trace_app a. Qed.

Lemma releases_app a b : releases (a ++ b) = releases a + releases b.
Proof. trace_app a. Qed.

Lemma lookups_app a b : lookups (a ++ b) = lookups a + lookups b.
Proof. trace_app a. Qed.

Lemma quiet_app a b : quiet a -> quiet b -> quiet (a ++ b).
Proof.
  unfold quiet. intros (A1 & A2 & A3 & A4) (B1 & B2 & B3 & B4).
  rewrite opened_app, written_app, acquires_app, releases_app.
  rewrite A1, A2, A3, A4, B1, B2, B3, B4. auto.
Qed.

Lemma quiet_identified s cs : quiet (identified s cs) /\ lookups (identified s cs) = 0.
Proof.
  unfold quiet. induction cs as [|c cs IH]; simpl; auto.
Qed.

Lemma quiet_waited s cs r w : waited s cs r w -> quiet w /\ lookups w = 0.
Proof.
  intros [cs'|pre c post why|pre c post].
  - apply quiet_identified.
  - destruct (quiet_identified s pre) as [Q L]. split.
    + apply quiet_app; [assumption | repeat split].
    + rewrite lookups_app, L. reflexivity.
  - apply quiet_identified.
Qed.

Lemma quiet_psp_run p protos r e : psp_run p protos r e -> quiet e.
Proof.
  intros [cs w W|cs w why W|cs w W|cs w x sup W|cs w sup e0 W];
    apply quiet_waited in W; destruct W as [W _];
    try (apply (quiet_app [_]); [repeat split |]);
    try (apply quiet_app); try assumption; repeat split.
Qed.

Lemma identified_In s cs e :
  In e (identified s cs) -> exists c, e = EvIdentifyWait s c SelIdentified.
Proof.
  unfold identified. rewrite in_map_iff. intros (c & <- & _). now exists c.
Qed.

(** The waits of a trace: all completed, apart from a last one that ended
    with the context, which is then the result. *)
Lemma waited_In s cs r w e :
  waited s cs r w -> In e w ->
  exists c, e = EvIdentifyWait s c SelIdentified \/
            exists why, e = EvIdentifyWait s c (SelDone why) /\
                        r = Some (Some why).
Proof.
  intros [cs'|pre c post why|pre c post] H; split_In;
    try (apply identified_In in H; destruct H as [c' ->]; exists c'; now left).
  exists c. right. exists why. now subst.
Qed.

(** The events of [peerSupportsProtos]. *)
Lemma psp_run_In p protos r evs e :
  psp_run p protos r evs -> In e evs ->
  (exists cs, e = EvConnsToPeer p cs) \/
  (exists c, e = EvIdentifyWait InPeerSupportsProtos c SelIdentified) \/
  (exists c why, e = EvIdentifyWait InPeerSupportsProtos c (SelDone why) /\
                 r = Some false /\ lookups evs = 0) \/
  (exists sup err, e = EvSupportsProtocols p protos sup err /\
                   r = Some (supported sup err)).
Proof.
  intros [cs w W|cs w why W|cs w W|cs w x sup W|cs w sup e0 W] H;
    split_In; subst;
    try (left; eexists; reflexivity);
    try (right; right; right; do 2 eexists; split; reflexivity);
    destruct (waited_In _ _ _ _ _ W H) as [c [-> | (why' & -> & Q)]];
    try discriminate;
    try (right; left; eexists; reflexivity).
  right; right; left. exists c, why'. repeat split.
  simpl. now apply quiet_waited in W.
Qed.

(** What [openStream] leaves in the trace besides a negotiation. *)
Lemma open_run_opened p ctx protos r evs :
  open_run p ctx protos r evs ->
  written evs = [] /\
  opened evs = match r with Some (inl dp) => [dp] | _ => [] end.
Proof.
  intros [cs w W|cs w why W|cs w e2 W P|cs w e2 W P|cs w e2 W P|cs w e2 x W P];
    apply quiet_waited in W; destruct W as [(W1 & W2 & _) _];
    try (apply quiet_psp_run in P; destruct P as (P1 & P2 & _));
    simpl; rewrite ?opened_app, ?written_app, ?W1, ?W2, ?P1, ?P2; simpl;
    auto.
Qed.

Lemma written_In c snap dp werr evs :
  In (EvWrite c snap dp werr) evs -> In dp (written evs).
Proof.
  induction evs as [|ev evs IH]; [intros [] |].
  destruct ev; simpl; intros [H|H]; try discriminate; auto;
    try (injection H as _ _ -> _; now left);
    try (right; now apply IH).
Qed.

(** A wait that ended with the context decides the result of
    [peerSupportsProtos] and of [openStream]. *)
Lemma psp_run_In_done p protos r evs s c why :
  psp_run p protos r evs -> In (EvIdentifyWait s c (SelDone why)) evs ->
  s = InPeerSupportsProtos /\ r = Some false /\ lookups evs = 0.
Proof.
  intros P H.
  destruct (psp_run_In _ _ _ _ _ P H)
    as [(? & Q) | [(? & Q) | [(? & ? & Q & ? & ?) | (? & ? & Q & _)]]];
    try discriminate.
  injection Q as -> _ _. auto.
Qed.

Lemma open_run_In_done p ctx protos r evs s c why :
  open_run p ctx protos r evs -> In (EvIdentifyWait s c (SelDone why)) evs ->
  (s = InOpenStream /\ r = Some (inr (ctx_Err why))) \/
  (s = InPeerSupportsProtos /\ r = Some (inr errProtocolNotSupported)).
Proof.
  intros O H.
  destruct O as [cs w W|cs w why' W|cs w e2 W P|cs w e2 W P|cs w e2 W P
                |cs w e2 x W P];
    unfold negotiation in *; split_In; try discriminate;
    try (destruct (psp_run_In_done _ _ _ _ _ _ _ P H) as (-> & Q & _);
         try discriminate; now right);
    destruct (waited_In _ _ _ _ _ W H) as [c' [Q | (why2 & Q & Q')]];
    try discriminate.
  injection Q as -> _ ->. injection Q' as ->. now left.
Qed.

(** ** Executions of the handler's functions *)

Section Runs.

Variable env : Env.

Lemma on_ids_ConnsToPeer p st :
  on_ids (host_ConnsToPeer env p) st =
  Returned (ConnsToPeer env (clock (ids st)) p)
           (advance st 1 [EvConnsToPeer p (ConnsToPeer env (clock (ids st)) p)]).
Proof. reflexivity. Qed.

Lemma on_ids_SupportsProtocols p protos st :
  on_ids (pstore_SupportsProtocols env p protos) st =
  let r := SupportsProtocols env (clock (ids st)) p protos in
  Returned r (advance st 1 [EvSupportsProtocols p protos (fst r) (snd r)]).
Proof. reflexivity. Qed.

Lemma on_ids_NewStream ctx p protos st :
  on_ids (host_NewStream env ctx p protos) st =
  let r := NewStream env (clock (ids st)) ctx p protos in
  Returned r (advance st 1 [EvNewStream ctx p protos r]).
Proof. reflexivity. Qed.

Lemma on_ids_getSnapshot st :
  on_ids (ids_getSnapshot env) st =
  let s := getSnapshot env (clock (ids st)) in
  Returned s (advance st 1 [EvGetSnapshot s]).
Proof. reflexivity. Qed.

Lemma on_ids_write c snap dp st :
  on_ids (ids_writeChunkedIdentifyMsg env c snap dp) st =
  let r := writeChunkedIdentifyMsg env (clock (ids st)) c snap dp in
  Returned r (advance st 1 [EvWrite c snap dp r]).
Proof. reflexivity. Qed.

Lemma wait_identified_run s ctx cs : forall i,
  exists r n evs,
    waited s cs r evs /\
    wait_identified env s ctx cs i = outcome_of r (adv i n evs).
Proof.
  induction cs as [|c cs IH]; intro i.
  - exists (Some None), 0, []. split; [exact (waited_all s []) |].
    simpl. unfold ret. now rewrite adv_0.
  - cbn [wait_identified]. unfold bind at 1.
    unfold select_IdentifyWait, bind, ask, emit, ret, block.
    destruct (IdentifyWait env (clock i) ctx c) as [|why|] eqn:E.
    + match goal with
      | |- context [wait_identified _ _ _ _ ?i1] =>
          destruct (IH i1) as (r & n & evs & W & R); rewrite R
      end.
      exists r, (n + 1), (EvIdentifyWait s c SelIdentified :: evs).
      split.
      * inversion W; subst.
        -- exact (waited_all s (c :: cs)).
        -- exact (waited_done s (c :: pre) c0 post why).
        -- exact (waited_never s (c :: pre) c0 post).
      * f_equal. unfold adv; simpl. f_equal; [lia |].
        now rewrite <- app_assoc.
    + exists (Some (Some why)), 1, [EvIdentifyWait s c (SelDone why)].
      split; [exact (waited_done s [] c cs why) | reflexivity].
    + exists None, 1, []. split; [exact (waited_never s [] c cs) |].
      unfold adv; simpl. now rewrite app_nil_r.
Qed.

Lemma on_ids_wait_identified s ctx cs st :
  exists r n evs,
    waited s cs r evs /\
    on_ids (wait_identified env s ctx cs) st = outcome_of r (advance st n evs).
Proof.
  destruct (wait_identified_run s ctx cs (ids st)) as (r & n & evs & W & R).
  exists r, n, evs. split; [assumption |]. now apply on_ids_outcome_of.
Qed.

Lemma peerSupportsProtos_run ctx protos st :
  exists r n evs,
    psp_run (pid (ph st)) protos r evs /\
    peerSupportsProtos env ctx protos st = outcome_of r (advance st n evs).
Proof.
  unfold peerSupportsProtos.
  rewrite (bind_Returned _ _ st (ph st) st) by reflexivity.
  rewrite (bind_Returned _ _ _ _ _ (on_ids_ConnsToPeer _ st)).
  set (cs := ConnsToPeer env (clock (ids st)) (pid (ph st))).
  set (st1 := advance st 1 _).
  destruct (on_ids_wait_identified InPeerSupportsProtos ctx cs st1)
    as (r & n & w & W & R).
  rewrite (bind_outcome_of _ _ _ _ _ R).
  destruct r as [[why|]|].
  - exists (Some false), (n + 1), (EvConnsToPeer (pid (ph st)) cs :: w).
    split; [now apply psp_done with why |].
    unfold ret, st1. now rewrite advance_advance.
  - rewrite (bind_Returned _ _ _ _ _ (on_ids_SupportsProtocols _ _ _)).
    cbv zeta.
    set (q := SupportsProtocols env _ _ _).
    destruct q as [sup [e|]]; simpl fst; simpl snd.
    + exists (Some true), (1 + (n + 1)),
        (EvConnsToPeer (pid (ph st)) cs :: w ++
         [EvSupportsProtocols (pid (ph st)) protos sup (Some e)]).
      split; [now apply psp_lookup_error |].
      unfold ret, st1. now rewrite !advance_advance.
    + destruct sup as [|x sup]; simpl.
      * exists (Some false), (1 + (n + 1)),
          (EvConnsToPeer (pid (ph st)) cs :: w ++
           [EvSupportsProtocols (pid (ph st)) protos [] None]).
        split; [now apply psp_empty |].
        unfold ret, st1. now rewrite !advance_advance.
      * exists (Some true), (1 + (n + 1)),
          (EvConnsToPeer (pid (ph st)) cs :: w ++
           [EvSupportsProtocols (pid (ph st)) protos (x :: sup) None]).
        split; [now apply psp_some |].
        unfold ret, st1. now rewrite !advance_advance.
  - exists None, (n + 1), (EvConnsToPeer (pid (ph st)) cs :: w).
    split; [now apply psp_never |].
    unfold st1. now rewrite advance_advance.
Qed.

(** The part of [openStream] that holds a semaphore slot: it returns what
    [NewStream] returned and leaves the semaphore as it found it. *)
Lemma negotiation_run ctx protos st :
  Nat.ltb (chan_len (pushSemaphore (ids st)))
          (chan_cap (pushSemaphore (ids st))) = true ->
  let p := pid (ph st) in
  let r := NewStream env (clock (ids st)) (newstream_ctx ctx) p
                     (ConvertFromStrings protos) in
  (on_ids sem_send ;;;
   s <- on_ids (host_NewStream env (newstream_ctx ctx) p
                               (ConvertFromStrings protos)) ;;
   on_ids (call_cancel (timeout_ctx ctx)) ;;;
   on_ids sem_recv ;;;
   match s with
   | inr err => ret (inr err)
   | inl dp => ret (inl dp)
   end) st
  = Returned r (advance st 1 (negotiation p ctx protos r)).
Proof.
  intros Hfree p r. subst p r.
  destruct st as [h [[cap len] clk tr]]; simpl in *.
  unfold bind, on_ids, sem_send, host_NewStream, call_cancel, sem_recv,
    bind, ask, emit, ret; simpl.
  rewrite Hfree; simpl.
  unfold advance, adv, negotiation; simpl.
  rewrite <- !app_assoc; simpl.
  now destruct (NewStream env clk _ h.(pid) _).
Qed.

Lemma sem_full_blocks {A} (k : unit -> M State A) st :
  Nat.ltb (chan_len (pushSemaphore (ids st)))
          (chan_cap (pushSemaphore (ids st))) = false ->
  bind (on_ids sem_send) k st = Blocked st.
Proof.
  intro Hfull. unfold bind, on_ids, sem_send. rewrite Hfull.
  now destruct st.
Qed.

Lemma openStream_run ctx protos st :
  exists r n evs,
    open_run (pid (ph st)) ctx protos r evs /\
    openStream env ctx protos st = outcome_of r (advance st n evs).
Proof.
  unfold openStream.
  rewrite (bind_Returned _ _ st (ph st) st) by reflexivity.
  rewrite (bind_Returned _ _ _ _ _ (on_ids_ConnsToPeer _ st)).
  set (p := pid (ph st)).
  set (cs := ConnsToPeer env (clock (ids st)) p).
  set (st1 := advance st 1 _).
  destruct (on_ids_wait_identified InOpenStream ctx cs st1)
    as (r & n & w & W & R).
  rewrite (bind_outcome_of _ _ _ _ _ R).
  destruct r as [[why|]|].
  - exists (Some (inr (ctx_Err why))), (n + 1), (EvConnsToPeer p cs :: w).
    split; [now apply open_done |].
    unfold ret, st1. now rewrite advance_advance.
  - destruct (peerSupportsProtos_run ctx protos (advance st1 n w))
      as (b & m & e2 & P & R2).
    change (pid (ph (advance st1 n w))) with p in P.
    rewrite (bind_outcome_of _ _ _ _ _ R2).
    unfold st1. rewrite !advance_advance. simpl app.
    destruct b as [[|]|].
    + cbn [negb].
      set (st2 := advance st _ _).
      destruct (Nat.ltb (chan_len (pushSemaphore (ids st2)))
                        (chan_cap (pushSemaphore (ids st2)))) eqn:Hsem.
      * pose proof (negotiation_run ctx protos st2 Hsem) as N.
        cbv zeta in N. change (pid (ph st2)) with p in N.
        eexists (Some _), _, _. split.
        -- apply open_negotiated with (1 := W) (2 := P).
        -- etransitivity; [exact N |].
           unfold st2. rewrite advance_advance. simpl outcome_of.
           do 2 f_equal. simpl. now rewrite <- app_assoc.
      * eexists None, _, _. split; cycle 1.
        -- apply sem_full_blocks. exact Hsem.
        -- now apply open_sem_full.
    + eexists (Some (inr errProtocolNotSupported)), _, _.
      split; cycle 1; [reflexivity | now apply open_unsupported].
    + eexists None, _, _.
      split; cycle 1; [reflexivity | now apply open_check_never].
  - exists None, (n + 1), (EvConnsToPeer p cs :: w).
    split; [now apply open_never |].
    unfold st1. now rewrite advance_advance.
Qed.

(** What [sendPush] does once [openStream] has returned the stream [dp]. *)
Lemma sendPush_after_open ctx st dp st1 :
  openStream env ctx [IDPush env] st = Returned (inl dp) st1 ->
  let snap := getSnapshot env (clock (ids st1)) in
  let werr := writeChunkedIdentifyMsg env (S (clock (ids st1)))
                (stream_conn dp) snap dp in
  sendPush env ctx st =
  if is_free (snapshotMu (ph st1))
  then
    match werr with
    | Some e =>
        Returned (Some (Errorf "failed to send push message" e))
          (mkState (stored (ph st1) snap)
             (adv (ids st1) 2
                  (transmission snap dp werr ++ [EvReset dp; EvClose dp])))
    | None =>
        Returned None
          (mkState (stored (ph st1) snap)
             (adv (ids st1) 2 (transmission snap dp werr ++ [EvClose dp])))
    end
  else Blocked (advance st1 1 [EvGetSnapshot snap]).
Proof.
  intros R snap werr. unfold sendPush.
  rewrite (bind_Returned _ _ st (ph st) st) by reflexivity.
  rewrite (bind_Returned _ _ _ _ _ R).
  rewrite (bind_Returned _ _ _ _ _ (on_ids_getSnapshot st1)).
  cbv zeta. fold snap.
  destruct st1 as [h [sem clk tr]]; simpl in *.
  unfold bind at 1. unfold snapshotMu_Lock; simpl.
  destruct (is_free (snapshotMu h)) eqn:F; [| reflexivity].
  unfold bind, set_snapshot, snapshotMu_Unlock, get_ph, put_ph, on_ids,
    ids_writeChunkedIdentifyMsg, bind, ask, emit, ret; simpl.
  fold werr.
  unfold stored, adv, transmission; simpl.
  destruct werr; simpl; rewrite <- !app_assoc; reflexivity.
Qed.

Lemma sendPush_run ctx st :
  exists r n evs h',
    push_run (ph st) ctx (IDPush env) r evs h' /\
    sendPush env ctx st = outcome_of r (mkState h' (adv (ids st) n evs)).
Proof.
  destruct (openStream_run ctx [IDPush env] st) as (r & n & e1 & O & R).
  destruct r as [[dp|err]|].
  - pose proof (sendPush_after_open ctx st dp _ R) as E. cbv zeta in E.
    rewrite E. change (ph (advance st n e1)) with (ph st).
    set (snap := getSnapshot env _) in *.
    destruct (is_free (snapshotMu (ph st))) eqn:F.
    + destruct (writeChunkedIdentifyMsg env _ _ snap dp) as [e|].
      * eexists (Some (Some _)), _, _, _. split; cycle 1.
        -- simpl. rewrite adv_adv. reflexivity.
        -- now apply push_write_failed.
      * eexists (Some None), _, _, _. split; cycle 1.
        -- simpl. rewrite adv_adv. reflexivity.
        -- now apply push_sent.
    + eexists None, _, _, _. split; cycle 1.
      * simpl. rewrite advance_advance. reflexivity.
      * now apply push_lock_never with dp.
  - unfold sendPush.
    rewrite (bind_Returned _ _ st (ph st) st) by reflexivity.
    rewrite (bind_outcome_of _ _ _ _ _ R).
    destruct (is_errProtocolNotSupported err) eqn:Q.
    + destruct err; try discriminate.
      rewrite (bind_Returned _ _ _ _ _ (on_ids_emit _ _)).
      eexists (Some None), _, _, _. split; cycle 1.
      * unfold ret. rewrite advance_advance. reflexivity.
      * now apply push_unsupported.
    + eexists (Some (Some _)), _, _, _. split; cycle 1.
      * reflexivity.
      * now apply push_open_failed.
  - unfold sendPush.
    rewrite (bind_Returned _ _ st (ph st) st) by reflexivity.
    rewrite (bind_outcome_of _ _ _ _ _ R).
    eexists None, _, _, _. split; cycle 1.
    + reflexivity.
    + now apply push_never.
Qed.

Lemma openStream_Returned ctx protos st v st1 :
  openStream env ctx protos st = Returned v st1 ->
  exists n evs,
    open_run (pid (ph st)) ctx protos (Some v) evs /\ st1 = advance st n evs.
Proof.
  intro H. destruct (openStream_run ctx protos st) as (r & n & evs & O & R).
  rewrite R in H. destruct r as [v'|]; simpl in H; [| discriminate].
  injection H as -> <-. now exists n, evs.
Qed.

Lemma events_openStream ctx protos st r n evs :
  openStream env ctx protos st = outcome_of r (advance st n evs) ->
  events (openStream env ctx protos) st = evs.
Proof.
  intro R. apply events_advance with (ph st) n. rewrite R.
  apply final_outcome_of.
Qed.

Lemma events_sendPush ctx st r h n evs :
  sendPush env ctx st = outcome_of r (mkState h (adv (ids st) n evs)) ->
  events (sendPush env ctx) st = evs.
Proof.
  intro R. apply events_advance with h n. rewrite R.
  apply final_outcome_of.
Qed.

End Runs.

(** ** Properties *)

Lemma ConvertFromStrings_id l : ConvertFromStrings l = l.
Proof. apply map_id. Qed.

Section Properties.

Variable env : Env.

(** C1.  When [openStream] reports [errProtocolNotSupported], [sendPush]
    returns nil; its trace holds no opened stream and no write, and the
    handler's last sent snapshot is the one it had. *)
Theorem sendPush_protocol_not_supported ctx st st1 :
  openStream env ctx [IDPush env] st
    = Returned (inr errProtocolNotSupported) st1 ->
  exists st2,
    sendPush env ctx st = Returned None st2 /\
    opened (events (sendPush env ctx) st) = [] /\
    written (events (sendPush env ctx) st) = [] /\
    snapshot (ph st2) = snapshot (ph st).
Proof.
  intro H.
  destruct (openStream_Returned env _ _ _ _ _ H) as (n & e1 & O & E1).
  assert (E : sendPush env ctx st =
              Returned None
                (advance st (0 + n) (e1 ++ [debug_unsupported (pid (ph st))]))).
  { unfold sendPush.
    rewrite (bind_Returned _ _ st (ph st) st) by reflexivity.
    rewrite (bind_Returned _ _ _ _ _ H). cbn [is_errProtocolNotSupported].
    rewrite (bind_Returned _ _ _ _ _ (on_ids_emit _ _)).
    unfold ret. subst st1. now rewrite advance_advance. }
  eexists. split; [exact E |].
  rewrite (events_sendPush env ctx st (Some None) (ph st) _ _ E).
  destruct (open_run_opened _ _ _ _ _ O) as [W Op].
  rewrite opened_app, written_app, W, Op. auto.
Qed.

(** C9.  [newPeerHandler] returns, for every peer and every state of the
    service, a handler that holds the service's current snapshot and whose
    push channel is empty with capacity 1. *)
Theorem newPeerHandler_prepopulated p i :
  exists h i',
    newPeerHandler env p i = Returned h i' /\
    snapshot h = getSnapshot env (clock i) /\
    chan_cap (pushCh h) = 1 /\
    chan_len (pushCh h) = 0 /\
    pid h = p /\
    cancel h = None.
Proof.
  unfold newPeerHandler, ids_getSnapshot, bind, ask, emit, ret.
  do 2 eexists. split; [reflexivity |]. simpl. auto.
Qed.

(** C8.  [start] on a running handler panics; [stop] returns nil in every
    state and clears [cancel], changes nothing on a stopped handler, and a
    [start] after it returns with the handler running. *)
Theorem start_stop_lifecycle ctx onExit st :
  (cancel (ph st) <> None ->
   start ctx onExit st = Panicked "peer handler already running" st) /\
  exists st1,
    stop st = Returned None st1 /\
    cancel (ph st1) = None /\
    (cancel (ph st) = None -> st1 = st) /\
    stop st1 = Returned None st1 /\
    exists st2,
      start ctx onExit st1 = Returned tt st2 /\
      cancel (ph st2) <> None.
Proof.
  destruct st as [[c p mu sn ch] [sem clk tr]].
  split.
  - simpl. destruct c; [reflexivity | congruence].
  - destruct c as [c|].
    + eexists. split; [reflexivity |]. simpl.
      repeat split; try reflexivity. intro; discriminate.
      eexists. split; [reflexivity |]. simpl. discriminate.
    + eexists. split; [reflexivity |]. simpl.
      repeat split; try reflexivity.
      eexists. split; [reflexivity |]. simpl. discriminate.
Qed.

(** C6.  In every execution of [openStream] the semaphore ends as it began
    and the trace holds as many receives from it as sends to it, at most
    one.  Either there is none, or the trace ends with the peerstore's answer, one for
    which the support check says yes, followed by one send, the call to
    [NewStream], the deferred [cancel] and one receive, and [openStream]
    returns what [NewStream] returned, a stream or an error. *)
Theorem openStream_semaphore_paired ctx protos st :
  let o := openStream env ctx protos st in
  let evs := events (openStream env ctx protos) st in
  pushSemaphore (ids (final o)) = pushSemaphore (ids st) /\
  acquires evs = releases evs /\
  acquires evs <= 1 /\
  (acquires evs = 0 \/
   exists pre sup err r,
     evs = pre ++
           [EvSupportsProtocols (pid (ph st)) protos sup err;
            EvSemSend;
            EvNewStream (newstream_ctx ctx) (pid (ph st))
                        (ConvertFromStrings protos) r;
            EvCancel (timeout_ctx ctx);
            EvSemRecv] /\
     supported sup err = true /\
     acquires pre = 0 /\ releases pre = 0 /\
     o = Returned r (final o)).
Proof.
  intros o evs. subst o evs.
  destruct (openStream_run env ctx protos st) as (r & n & e & O & R).
  rewrite (events_openStream env _ _ _ _ _ _ R), R, final_outcome_of.
  split; [reflexivity |].
  set (p := pid (ph st)) in *.
  destruct O as [cs w W|cs w why W|cs w e2 W P|cs w e2 W P|cs w e2 W P
                |cs w e2 x W P];
    apply quiet_waited in W; destruct W as [(_ & _ & W3 & W4) _];
    try (pose proof (quiet_psp_run _ _ _ _ P) as (_ & _ & P3 & P4));
    simpl; rewrite ?acquires_app, ?releases_app, ?W3, ?W4, ?P3, ?P4;
    simpl; auto.
  split; [reflexivity |]. split; [apply Nat.le_refl |]. right.
  assert (Q : exists cs' w' sup err,
             e2 = EvConnsToPeer p cs' :: w' ++
                  [EvSupportsProtocols p protos sup err] /\
             supported sup err = true /\
             acquires w' = 0 /\ releases w' = 0).
  { inversion P as [| | |cs' w' y sup W'|cs' w' sup e0 W']; subst;
      apply quiet_waited in W'; destruct W' as [(_ & _ & A & B) _];
      do 4 eexists; repeat split; try reflexivity; assumption. }
  destruct Q as (cs' & w' & sup & err & -> & S & A & B).
  exists (EvConnsToPeer p cs :: w ++ EvConnsToPeer p cs' :: w'), sup, err, x.
  repeat split; try assumption.
  - unfold negotiation. simpl. f_equal.
    now rewrite <- !app_assoc.
  - simpl. rewrite acquires_app, W3. simpl. assumption.
  - simpl. rewrite releases_app, W4. simpl. assumption.
Qed.

(** C7.  Every call [openStream] makes to [NewStream] is for the handler's
    peer, with exactly the protocols [openStream] was given, under the
    caller's context wrapped in a timeout of 30 seconds and then in the
    no-dial hint; [openStream] returns what that call returned. *)
Theorem openStream_negotiation_arguments ctx protos st c p ps r :
  In (EvNewStream c p ps r) (events (openStream env ctx protos) st) ->
  p = pid (ph st) /\
  ps = protos /\
  c = WithNoDial (WithTimeout ctx (30 * Second))
                 "should already have connection" /\
  timeouts c = (30 * 1000000000)%Z :: timeouts ctx /\
  GetNoDial c = (true, "should already have connection") /\
  exists st', openStream env ctx protos st = Returned r st'.
Proof.
  destruct (openStream_run env ctx protos st) as (r0 & n & e & O & R).
  rewrite (events_openStream env _ _ _ _ _ _ R), R.
  intro H.
  assert (Q : c = newstream_ctx ctx /\ p = pid (ph st) /\
              ps = ConvertFromStrings protos /\ r0 = Some r).
  { destruct O as [cs w W|cs w why W|cs w e2 W P|cs w e2 W P|cs w e2 W P
                  |cs w e2 x W P];
      unfold negotiation in *; split_In; try discriminate;
      try (destruct (waited_In _ _ _ _ _ W H) as [? [? | (? & ? & _)]];
           discriminate);
      try (destruct (psp_run_In _ _ _ _ _ P H)
             as [(? & ?) | [(? & ?) | [(? & ? & ? & _) | (? & ? & ? & _)]]];
           discriminate).
    injection H as <- <- <- <-. auto. }
  destruct Q as (-> & -> & -> & ->).
  rewrite ConvertFromStrings_id.
  repeat split. eexists. reflexivity.
Qed.

(** C2.  When [openStream] returns a stream and the snapshot mutex is free,
    [sendPush] returns, and what it adds to the trace after [openStream]
    begins with: the service's snapshot is read, the mutex is locked, the
    snapshot is stored, the mutex is unlocked, the write is made.  The
    handler ends with that snapshot as its last sent one whatever the write
    answered, an error included. *)
Theorem sendPush_stores_snapshot_before_write ctx st dp st1 :
  openStream env ctx [IDPush env] st = Returned (inl dp) st1 ->
  is_free (snapshotMu (ph st)) = true ->
  let snap := getSnapshot env (clock (ids st1)) in
  let werr := writeChunkedIdentifyMsg env (S (clock (ids st1)))
                (stream_conn dp) snap dp in
  exists rest r st2,
    sendPush env ctx st = Returned r st2 /\
    events (sendPush env ctx) st =
      events (openStream env ctx [IDPush env]) st ++
      [EvGetSnapshot snap; EvLock; EvSetSnapshot snap; EvUnlock;
       EvWrite (stream_conn dp) snap dp werr] ++ rest /\
    snapshot (ph st2) = snap /\
    is_free (snapshotMu (ph st2)) = true /\
    (r = None <-> werr = None).
Proof.
  intros H F snap werr.
  pose proof (sendPush_after_open env ctx st dp st1 H) as E.
  cbv zeta in E. fold snap in E. fold werr in E.
  destruct (openStream_Returned env _ _ _ _ _ H) as (n & e1 & O & E1).
  subst st1. change (ph (advance st n e1)) with (ph st) in E.
  rewrite F in E.
  rewrite (events_openStream env ctx _ st (Some (inl dp)) n e1 H).
  assert (F' : forall s, is_free (snapshotMu (stored (ph st) s)) = true).
  { intro s. unfold is_free in *. simpl.
    apply andb_true_iff in F. now destruct F as [_ F]. }
  simpl ids in E. rewrite !adv_adv in E.
  destruct werr as [e|] eqn:W.
  - exists [EvReset dp; EvClose dp]. do 2 eexists.
    split; [exact E |].
    rewrite (events_sendPush env ctx st (Some (Some _)) _ _ _ E).
    repeat split; auto; try discriminate. apply F'.
  - exists [EvClose dp]. do 2 eexists.
    split; [exact E |].
    rewrite (events_sendPush env ctx st (Some None) _ _ _ E).
    repeat split; auto. apply F'.
Qed.

(** C5.  When the trace of [sendPush] holds a write to a stream that
    answered with an error, the stream is the one [NewStream] opened, the
    trace ends with that write, [Reset] on the stream and the deferred
    [Close], and [sendPush] returns an error that wraps the write's. *)
Theorem sendPush_write_failure_resets ctx st c snap dp e :
  In (EvWrite c snap dp (Some e)) (events (sendPush env ctx) st) ->
  exists pre err st2,
    events (sendPush env ctx) st =
      pre ++ [EvWrite c snap dp (Some e); EvReset dp; EvClose dp] /\
    opened pre = [dp] /\
    written pre = [] /\
    sendPush env ctx st = Returned (Some err) st2 /\
    err = Errorf "failed to send push message" e /\
    Unwrap err = Some e.
Proof.
  destruct (sendPush_run env ctx st) as (r & n & evs & h' & P & R).
  rewrite (events_sendPush env _ _ _ _ _ _ R), R.
  intro H.
  destruct P as [e1 O|e1 O|e1 err O Q|e1 dp' snap' O F|e1 dp' snap' O F
                |e1 dp' snap' e' O F];
    destruct (open_run_opened _ _ _ _ _ O) as [W Op];
    unfold transmission, debug_unsupported in *; split_In;
    try discriminate;
    try (apply written_In in H; rewrite W in H; destruct H).
  injection H as -> -> -> ->.
  exists (e1 ++ [EvGetSnapshot snap; EvLock; EvSetSnapshot snap; EvUnlock]).
  do 2 eexists. repeat split.
  - now rewrite <- app_assoc.
  - rewrite opened_app, Op. reflexivity.
  - rewrite written_app, W. reflexivity.
Qed.

(** C3, as amended.  When the context's case fires in one of [openStream]'s
    own waits on a connection's identify-completion signal, [openStream]
    returns the context's error, and no stream. *)
Theorem openStream_cancel_in_own_wait ctx protos st c why :
  In (EvIdentifyWait InOpenStream c (SelDone why))
     (events (openStream env ctx protos) st) ->
  exists st', openStream env ctx protos st = Returned (inr (ctx_Err why)) st'.
Proof.
  destruct (openStream_run env ctx protos st) as (r & n & e & O & R).
  rewrite (events_openStream env _ _ _ _ _ _ R), R. intro H.
  destruct (open_run_In_done _ _ _ _ _ _ _ _ O H) as [(_ & ->) | (Q & _)];
    [| discriminate].
  eexists. reflexivity.
Qed.

(** C4, as amended.  When the peerstore lookup made by
    [peerSupportsProtos] answers with an error, the function returns true.
    When it returns false, either the context's case fired during the wait
    and the peerstore was not asked, or the lookup answered without error
    and with no protocol. *)
Theorem peerSupportsProtos_answers ctx protos st :
  let o := peerSupportsProtos env ctx protos st in
  let evs := events (peerSupportsProtos env ctx protos) st in
  (forall p ps sup e,
      In (EvSupportsProtocols p ps sup (Some e)) evs ->
      exists st', o = Returned true st') /\
  (forall st',
      o = Returned false st' ->
      (exists c why,
          In (EvIdentifyWait InPeerSupportsProtos c (SelDone why)) evs /\
          lookups evs = 0) \/
      In (EvSupportsProtocols (pid (ph st)) protos [] None) evs).
Proof.
  intros o evs. subst o evs.
  destruct (peerSupportsProtos_run env ctx protos st) as (r & n & e & P & R).
  assert (E : events (peerSupportsProtos env ctx protos) st = e).
  { apply events_advance with (ph st) n. rewrite R. apply final_outcome_of. }
  rewrite E, R. split.
  - intros p ps sup e0 H.
    destruct (psp_run_In _ _ _ _ _ P H)
      as [(? & Q) | [(? & Q) | [(? & ? & Q & _) | (? & ? & Q & ->)]]];
      try discriminate.
    injection Q as _ _ _ <-. eexists. reflexivity.
  - intros st' H.
    destruct P as [cs w W|cs w why W|cs w W|cs w x sup W|cs w sup e0 W];
      try discriminate.
    + left. inversion W as [|pre c post why' Hcs Hr Hw|]; subst.
      exists c, why. split.
      * right. apply in_or_app. right. now left.
      * simpl. rewrite lookups_app.
        destruct (quiet_identified InPeerSupportsProtos pre) as [_ ->].
        reflexivity.
    + right. right. apply in_or_app. right. now left.
Qed.

(** C10.  When the context's case fires in a wait of [peerSupportsProtos],
    [peerSupportsProtos] returns false, an [openStream] that made the call
    returns [errProtocolNotSupported], and a [sendPush] that made the call
    returns nil. *)
Theorem cancel_in_peerSupportsProtos_is_swallowed ctx st c why :
  (forall protos,
      In (EvIdentifyWait InPeerSupportsProtos c (SelDone why))
         (events (peerSupportsProtos env ctx protos) st) ->
      exists st', peerSupportsProtos env ctx protos st = Returned false st') /\
  (forall protos,
      In (EvIdentifyWait InPeerSupportsProtos c (SelDone why))
         (events (openStream env ctx protos) st) ->
      exists st',
        openStream env ctx protos st
          = Returned (inr errProtocolNotSupported) st') /\
  (In (EvIdentifyWait InPeerSupportsProtos c (SelDone why))
      (events (sendPush env ctx) st) ->
   exists st', sendPush env ctx st = Returned None st').
Proof.
  repeat split.
  - intros protos.
    destruct (peerSupportsProtos_run env ctx protos st)
      as (r & n & e & P & R).
    assert (E : events (peerSupportsProtos env ctx protos) st = e).
    { apply events_advance with (ph st) n. rewrite R.
      apply final_outcome_of. }
    rewrite E, R. intro H.
    destruct (psp_run_In_done _ _ _ _ _ _ _ P H) as (_ & -> & _).
    eexists. reflexivity.
  - intros protos.
    destruct (openStream_run env ctx protos st) as (r & n & e & O & R).
    rewrite (events_openStream env _ _ _ _ _ _ R), R. intro H.
    destruct (open_run_In_done _ _ _ _ _ _ _ _ O H) as [(Q & _) | (_ & ->)];
      [discriminate |].
    eexists. reflexivity.
  - destruct (sendPush_run env ctx st) as (r & n & e & h' & P & R).
    rewrite (events_sendPush env _ _ _ _ _ _ R), R. intro H.
    destruct P as [e1 O|e1 O|e1 err O Q|e1 dp' snap' O F|e1 dp' snap' O F
                  |e1 dp' snap' e' O F];
      unfold transmission, debug_unsupported in *; split_In;
      try discriminate;
      destruct (open_run_In_done _ _ _ _ _ _ _ _ O H)
        as [(Q1 & _) | (_ & Q2)];
      try discriminate.
    + eexists. reflexivity.
    + injection Q2 as ->. discriminate.
Qed.

End Properties.

(** ** The properties on the scenarios *)

Ltac in_trace := vm_compute; repeat first [left; reflexivity | right].

(** C1 on the scenario of a peer known not to support the push. *)
Lemma sendPush_protocol_not_supported_witness :
  let st1 := final (openStream env_unsupported Background [push_id] st0) in
  openStream env_unsupported Background [IDPush env_unsupported] st0
    = Returned (inr errProtocolNotSupported) st1 /\
  exists st2,
    sendPush env_unsupported Background st0 = Returned None st2 /\
    opened (events (sendPush env_unsupported Background) st0) = [] /\
    written (events (sendPush env_unsupported Background) st0) = [] /\
    snapshot (ph st2) = snapshot (ph st0).
Proof.
  intro st1.
  assert (H : openStream env_unsupported Background [IDPush env_unsupported]
                st0 = Returned (inr errProtocolNotSupported) st1)
    by (vm_compute; reflexivity).
  split; [exact H |].
  exact (sendPush_protocol_not_supported env_unsupported Background st0 st1 H).
Defined.

(** C2 on the scenario of a failing write: the handler holds [S1]
    afterwards. *)
Lemma sendPush_stores_snapshot_before_write_witness :
  let st1 := final (openStream env_write_fails Background [push_id] st0) in
  openStream env_write_fails Background [IDPush env_write_fails] st0
    = Returned (inl dp7) st1 /\
  is_free (snapshotMu (ph st0)) = true /\
  exists rest r st2,
    sendPush env_write_fails Background st0 = Returned r st2 /\
    events (sendPush env_write_fails Background) st0 =
      events (openStream env_write_fails Background
                         [IDPush env_write_fails]) st0 ++
      [EvGetSnapshot S1; EvLock; EvSetSnapshot S1; EvUnlock;
       EvWrite 7 S1 dp7 (Some (errOther "stream reset"))] ++ rest /\
    snapshot (ph st2) = S1 /\
    is_free (snapshotMu (ph st2)) = true /\
    (r = None <-> Some (errOther "stream reset") = None).
Proof.
  intro st1.
  assert (H : openStream env_write_fails Background [IDPush env_write_fails]
                st0 = Returned (inl dp7) st1)
    by (vm_compute; reflexivity).
  assert (F : is_free (snapshotMu (ph st0)) = true) by reflexivity.
  split; [exact H |]. split; [exact F |].
  exact (sendPush_stores_snapshot_before_write env_write_fails Background st0
           dp7 st1 H F).
Defined.

(** C3, as stated, fails: connection 8 appears after [openStream] listed
    the peer's connections, the context is cancelled while
    [peerSupportsProtos] waits on it, and [openStream] returns
    [errProtocolNotSupported], not the context's error. *)
Lemma openStream_cancel_in_check_counterexample :
  In (EvIdentifyWait InPeerSupportsProtos 8 (SelDone byCancel))
     (events (openStream env_cancel_in_peerSupportsProtos Background
                         [push_id]) st0) /\
  value (openStream env_cancel_in_peerSupportsProtos Background [push_id] st0)
    = Some (inr errProtocolNotSupported) /\
  value (openStream env_cancel_in_peerSupportsProtos Background [push_id] st0)
    <> Some (inr (ctx_Err byCancel)).
Proof.
  split; [in_trace |]. split; [vm_compute; reflexivity |].
  vm_compute. discriminate.
Qed.

(** C3, as amended, on the scenario of a context cancelled during
    [openStream]'s wait on connection 7. *)
Lemma openStream_cancel_in_own_wait_witness :
  In (EvIdentifyWait InOpenStream 7 (SelDone byCancel))
     (events (openStream env_cancelled Background [push_id]) st0) /\
  exists st',
    openStream env_cancelled Background [push_id] st0
      = Returned (inr (ctx_Err byCancel)) st'.
Proof.
  assert (H : In (EvIdentifyWait InOpenStream 7 (SelDone byCancel))
                 (events (openStream env_cancelled Background [push_id]) st0))
    by in_trace.
  split; [exact H |].
  exact (openStream_cancel_in_own_wait env_cancelled Background [push_id] st0
           7 byCancel H).
Defined.

(** C4, as stated, fails: the context is cancelled while
    [peerSupportsProtos] waits on connection 7, and it returns false though
    the peerstore was never asked. *)
Lemma peerSupportsProtos_false_without_lookup_counterexample :
  value (peerSupportsProtos env_cancelled Background [push_id] st0)
    = Some false /\
  forall p ps sup err,
    ~ In (EvSupportsProtocols p ps sup err)
         (events (peerSupportsProtos env_cancelled Background [push_id]) st0).
Proof.
  split; [vm_compute; reflexivity |].
  intros p ps sup err H. vm_compute in H.
  destruct H as [H | [H | []]]; discriminate.
Qed.

(** C4, as amended, on a failing lookup and on an empty answer. *)
Lemma peerSupportsProtos_answers_witness :
  In (EvSupportsProtocols "QmPeer" [push_id] []
        (Some (errOther "invalid peer ID")))
     (events (peerSupportsProtos env_lookup_error Background [push_id]) st0) /\
  (exists st',
      peerSupportsProtos env_lookup_error Background [push_id] st0
        = Returned true st') /\
  peerSupportsProtos env_unsupported Background [push_id] st0
    = Returned false
        (final (peerSupportsProtos env_unsupported Background [push_id] st0)) /\
  In (EvSupportsProtocols "QmPeer" [push_id] [] None)
     (events (peerSupportsProtos env_unsupported Background [push_id]) st0).
Proof.
  assert (H : In (EvSupportsProtocols "QmPeer" [push_id] []
                    (Some (errOther "invalid peer ID")))
                 (events (peerSupportsProtos env_lookup_error Background
                                             [push_id]) st0))
    by in_trace.
  assert (R : peerSupportsProtos env_unsupported Background [push_id] st0
              = Returned false
                  (final (peerSupportsProtos env_unsupported Background
                                             [push_id] st0)))
    by (vm_compute; reflexivity).
  split; [exact H |]. split.
  - exact (proj1 (peerSupportsProtos_answers env_lookup_error Background
                    [push_id] st0) _ _ _ _ H).
  - split; [exact R |].
    destruct (proj2 (peerSupportsProtos_answers env_unsupported Background
                       [push_id] st0) _ R) as [(c & why & D & _) | L].
    + exfalso. vm_compute in D.
      destruct D as [D | [D | [D | []]]]; discriminate.
    + exact L.
Defined.

(** C5 on the scenario of a failing write. *)
Lemma sendPush_write_failure_resets_witness :
  In (EvWrite 7 S1 dp7 (Some (errOther "stream reset")))
     (events (sendPush env_write_fails Background) st0) /\
  exists pre err st2,
    events (sendPush env_write_fails Background) st0 =
      pre ++ [EvWrite 7 S1 dp7 (Some (errOther "stream reset"));
              EvReset dp7; EvClose dp7] /\
    opened pre = [dp7] /\
    written pre = [] /\
    sendPush env_write_fails Background st0 = Returned (Some err) st2 /\
    err = Errorf "failed to send push message" (errOther "stream reset") /\
    Unwrap err = Some (errOther "stream reset").
Proof.
  assert (H : In (EvWrite 7 S1 dp7 (Some (errOther "stream reset")))
                 (events (sendPush env_write_fails Background) st0))
    by in_trace.
  split; [exact H |].
  exact (sendPush_write_failure_resets env_write_fails Background st0 7 S1 dp7
           (errOther "stream reset") H).
Defined.

(** C6 on the scenario of a negotiation that runs into its deadline: the
    slot taken is given back. *)
Lemma openStream_semaphore_paired_witness :
  let o := openStream env_timeout Background [push_id] st0 in
  let evs := events (openStream env_timeout Background [push_id]) st0 in
  pushSemaphore (ids (final o)) = pushSemaphore (ids st0) /\
  acquires evs = releases evs /\
  acquires evs = 1 /\
  value o = Some (inr DeadlineExceeded).
Proof.
  intros o evs.
  destruct (openStream_semaphore_paired env_timeout Background [push_id] st0)
    as (A & B & _).
  split; [exact A |]. split; [exact B |].
  split; vm_compute; reflexivity.
Defined.

(** C7 on the scenario of a successful push. *)
Lemma openStream_negotiation_arguments_witness :
  let c := WithNoDial (WithTimeout Background 30000000000)
                      "should already have connection" in
  In (EvNewStream c "QmPeer" [push_id] (inl dp7))
     (events (openStream env_ok Background [push_id]) st0) /\
  "QmPeer" = pid (ph st0) /\
  [push_id] = [push_id] /\
  c = WithNoDial (WithTimeout Background (30 * Second))
                 "should already have connection" /\
  timeouts c = (30 * 1000000000)%Z :: timeouts Background /\
  GetNoDial c = (true, "should already have connection") /\
  exists st', openStream env_ok Background [push_id] st0
              = Returned (inl dp7) st'.
Proof.
  intro c.
  assert (H : In (EvNewStream c "QmPeer" [push_id] (inl dp7))
                 (events (openStream env_ok Background [push_id]) st0))
    by in_trace.
  split; [exact H |].
  exact (openStream_negotiation_arguments env_ok Background [push_id] st0 c
           "QmPeer" [push_id] (inl dp7) H).
Defined.

(** C8 on a running handler. *)
Lemma start_stop_lifecycle_witness :
  cancel (ph st_running) <> None /\
  start Background "onExit" st_running
    = Panicked "peer handler already running" st_running /\
  exists st1,
    stop st_running = Returned None st1 /\
    cancel (ph st1) = None /\
    stop st1 = Returned None st1 /\
    exists st2,
      start Background "onExit" st1 = Returned tt st2 /\
      cancel (ph st2) <> None.
Proof.
  assert (H : cancel (ph st_running) <> None) by (simpl; discriminate).
  destruct (start_stop_lifecycle Background "onExit" st_running)
    as (P & st1 & S1' & C1 & _ & S2 & R).
  split; [exact H |]. split; [exact (P H) |].
  exists st1. auto.
Defined.

(** C10 on the scenario of a connection that appears late. *)
Lemma cancel_in_peerSupportsProtos_is_swallowed_witness :
  In (EvIdentifyWait InPeerSupportsProtos 8 (SelDone byCancel))
     (events (sendPush env_cancel_in_peerSupportsProtos Background) st0) /\
  In (EvIdentifyWait InPeerSupportsProtos 8 (SelDone byCancel))
     (events (openStream env_cancel_in_peerSupportsProtos Background
                         [push_id]) st0) /\
  (exists st',
      openStream env_cancel_in_peerSupportsProtos Background [push_id] st0
        = Returned (inr errProtocolNotSupported) st') /\
  exists st',
    sendPush env_cancel_in_peerSupportsProtos Background st0
      = Returned None st'.
Proof.
  assert (H : In (EvIdentifyWait InPeerSupportsProtos 8 (SelDone byCancel))
                 (events (sendPush env_cancel_in_peerSupportsProtos
                                   Background) st0))
    by in_trace.
  assert (H' : In (EvIdentifyWait InPeerSupportsProtos 8 (SelDone byCancel))
                  (events (openStream env_cancel_in_peerSupportsProtos
                                      Background [push_id]) st0))
    by in_trace.
  destruct (cancel_in_peerSupportsProtos_is_swallowed
              env_cancel_in_peerSupportsProtos Background st0 8 byCancel)
    as (_ & O & P).
  split; [exact H |]. split; [exact H' |]. split.
  - exact (O [push_id] H').
  - exact (P H).
Defined.

(** ** Further properties of the handler *)

Lemma closed_app a b : closed (a ++ b) = closed a ++ closed b.
Proof. trace_app a. Qed.

Lemma resets_app a b : resets (a ++ b) = resets a ++ resets b.
Proof. trace_app a. Qed.

Lemma negotiations_app a b :
  negotiations (a ++ b) = negotiations a + negotiations b.
Proof. trace_app a. Qed.

(** A passive trace reads as nothing. *)
Lemma passive_nothing evs :
  forallb passive evs = true ->
  opened evs = [] /\ written evs = [] /\ closed evs = [] /\ resets evs = [] /\
  acquires evs = 0 /\ releases evs = 0 /\ negotiations evs = 0.
Proof.
  induction evs as [|e evs IH]; simpl; [repeat split |].
  intro H. apply andb_true_iff in H. destruct H as [He H].
  destruct e; try discriminate; auto.
Qed.

Lemma passive_app a b :
  forallb passive a = true -> forallb passive b = true ->
  forallb passive (a ++ b) = true.
Proof. intros A B. rewrite forallb_app, A, B. reflexivity. Qed.

Lemma passive_identified s cs : forallb passive (identified s cs) = true.
Proof. induction cs; simpl; auto. Qed.

Lemma passive_waited s cs r w : waited s cs r w -> forallb passive w = true.
Proof.
  intros [cs'|pre c post why|pre c post];
    try apply passive_app; try apply passive_identified; reflexivity.
Qed.

Lemma passive_psp_run p protos r e :
  psp_run p protos r e -> forallb passive e = true.
Proof.
  intros [cs w W|cs w why W|cs w W|cs w x sup W|cs w sup e0 W];
    apply passive_waited in W; simpl; try assumption;
    apply passive_app; auto.
Qed.

Lemma waited_all_inv s cs w : waited s cs (Some None) w -> w = identified s cs.
Proof. now inversion 1. Qed.

(** The traces of [openStream], by result: passive, then at most one
    negotiation. *)
Lemma open_run_split p ctx protos r evs :
  open_run p ctx protos r evs ->
  exists pre,
    forallb passive pre = true /\
    (evs = pre /\ (forall dp, r <> Some (inl dp)) \/
     exists x, evs = pre ++ negotiation p ctx protos x /\ r = Some x).
Proof.
  intros [cs w W|cs w why W|cs w e2 W P|cs w e2 W P|cs w e2 W P|cs w e2 x W P];
    apply passive_waited in W;
    try (apply passive_psp_run in P).
  6: { exists (EvConnsToPeer p cs :: w ++ e2). split.
       - simpl. now apply passive_app.
       - right. exists x. split; [| reflexivity].
         simpl. now rewrite <- app_assoc. }
  all: eexists; split;
    [| left; split; [reflexivity | intros dp Q; discriminate]];
    simpl; try assumption; now apply passive_app.
Qed.

Lemma negotiation_reads p ctx protos x :
  let n := negotiation p ctx protos x in
  closed n = [] /\ resets n = [] /\ written n = [] /\
  acquires n = 1 /\ releases n = 1 /\ negotiations n = 1 /\
  opened n = match x with inl dp => [dp] | inr _ => [] end.
Proof. simpl. destruct x; repeat split. Qed.

Lemma open_run_reads p ctx protos r evs :
  open_run p ctx protos r evs ->
  closed evs = [] /\ resets evs = [] /\ written evs = [] /\
  opened evs = match r with Some (inl dp) => [dp] | _ => [] end /\
  negotiations evs <= 1 /\
  (forall dp, r = Some (inl dp) -> negotiations evs = 1).
Proof.
  intro O. destruct (open_run_split _ _ _ _ _ O) as (pre & Pp & Q).
  destruct (passive_nothing _ Pp) as (A1' & A2' & A3 & A4 & A5 & A6 & A7).
  destruct Q as [(-> & N) | (x & -> & ->)].
  - rewrite A1', A2', A3, A4, A7. repeat split; auto.
    + destruct r as [[dp|e]|]; auto. now destruct (N dp).
    + intros dp Q. now destruct (N dp).
  - destruct (negotiation_reads p ctx protos x)
      as (B1 & B2 & B3 & B4 & B5 & B6 & B7).
    rewrite closed_app, resets_app, written_app, opened_app,
      negotiations_app, A1', A2', A3, A4, A7, B1, B2, B3, B6, B7.
    repeat split; auto.
Qed.

(** A peerstore answer in the trace of [openStream] decides how it goes
    on. *)
Lemma open_run_In_lookup p ctx protos r evs q ps sup err :
  open_run p ctx protos r evs ->
  In (EvSupportsProtocols q ps sup err) evs ->
  q = p /\ ps = protos /\
  (supported sup err = false /\ r = Some (inr errProtocolNotSupported) /\
   forallb passive evs = true
   \/
   supported sup err = true /\
   (r = None /\ forallb passive evs = true \/
    exists x pre, r = Some x /\ forallb passive pre = true /\
                  evs = pre ++ negotiation p ctx protos x)).
Proof.
  intros O H.
  destruct O as [cs w W|cs w why W|cs w e2 W P|cs w e2 W P|cs w e2 W P
                |cs w e2 x W P];
    unfold negotiation in *; split_In; try discriminate;
    try (destruct (waited_In _ _ _ _ _ W H) as [? [? | (? & ? & _)]];
         discriminate);
    (destruct (psp_run_In _ _ _ _ _ P H)
       as [(? & Q) | [(? & Q) | [(? & ? & Q & _) | (? & ? & Q & R)]]];
     try discriminate);
    injection Q as -> -> -> ->; injection R as R;
    pose proof (passive_waited _ _ _ _ W) as Pw;
    pose proof (passive_psp_run _ _ _ _ P) as Pe;
    repeat split.
  - left. repeat split; auto. simpl. now apply passive_app.
  - right. split; auto. left. split; auto. simpl. now apply passive_app.
  - right. split; auto. right.
    exists x, (EvConnsToPeer p cs :: w ++ e2). repeat split.
    + simpl. now apply passive_app.
    + simpl. now rewrite <- app_assoc.
Qed.

Section MoreProperties.

Variable env : Env.

(** X1.  When [openStream] returns an error other than
    [errProtocolNotSupported], [sendPush] returns that error wrapped as a
    failure to open the push stream, and does nothing more: it stops in the
    state [openStream] left, with the handler as it was and nothing
    written. *)
Theorem sendPush_open_failure ctx st err st1 :
  openStream env ctx [IDPush env] st = Returned (inr err) st1 ->
  err <> errProtocolNotSupported ->
  sendPush env ctx st
    = Returned (Some (Errorf "failed to open push stream" err)) st1 /\
  ph st1 = ph st /\
  opened (events (sendPush env ctx) st) = [] /\
  written (events (sendPush env ctx) st) = [].
Proof.
  intros H N.
  destruct (openStream_Returned env _ _ _ _ _ H) as (n & e1 & O & E1).
  assert (E : sendPush env ctx st =
              Returned (Some (Errorf "failed to open push stream" err)) st1).
  { unfold sendPush.
    rewrite (bind_Returned _ _ st (ph st) st) by reflexivity.
    rewrite (bind_Returned _ _ _ _ _ H).
    destruct err; try reflexivity. now destruct N. }
  split; [exact E |]. subst st1. split; [reflexivity |].
  rewrite (events_sendPush env ctx st (Some (Some _)) (ph st) n e1 E).
  destruct (open_run_reads _ _ _ _ _ O) as (_ & _ & W & Op & _).
  auto.
Qed.

(** X2.  An error returned by [sendPush] is of one of two kinds.  Either
    it wraps a failure to open the stream, which is not
    [errProtocolNotSupported]: then no stream was opened, nothing was
    written and the last sent snapshot is unchanged.  Or it wraps a failed
    write: then one stream was opened, written to, reset and closed. *)
Theorem sendPush_error_kinds ctx st err st' :
  sendPush env ctx st = Returned (Some err) st' ->
  let evs := events (sendPush env ctx) st in
  (exists e,
      err = Errorf "failed to open push stream" e /\
      e <> errProtocolNotSupported /\
      opened evs = [] /\ written evs = [] /\
      snapshot (ph st') = snapshot (ph st))
  \/
  (exists e dp,
      err = Errorf "failed to send push message" e /\
      opened evs = [dp] /\ written evs = [dp] /\
      resets evs = [dp] /\ closed evs = [dp]).
Proof.
  intros H evs. subst evs.
  destruct (sendPush_run env ctx st) as (r & n & evs & h' & P & R).
  rewrite (events_sendPush env _ _ _ _ _ _ R).
  rewrite R in H.
  destruct P as [e1 O|e1 O|e1 e O Q|e1 dp snap O F|e1 dp snap O F
                |e1 dp snap e O F];
    simpl in H; try discriminate;
    injection H as <- <-;
    destruct (open_run_reads _ _ _ _ _ O) as (C & Rs & W & Op & _).
  - left. exists e. repeat split; auto.
    intros ->. discriminate.
  - right. exists e, dp.
    rewrite opened_app, written_app, resets_app, closed_app, C, Rs, W, Op.
    repeat split.
Qed.

(** X3.  When the write on the opened stream answers nil, [sendPush]
    returns nil; the trace ends with that write and one [Close] of the
    stream, which is never reset, and the handler holds the snapshot that
    was written. *)
Theorem sendPush_write_success_closes ctx st c snap dp :
  In (EvWrite c snap dp None) (events (sendPush env ctx) st) ->
  exists pre st2,
    events (sendPush env ctx) st = pre ++ [EvWrite c snap dp None; EvClose dp] /\
    opened pre = [dp] /\
    resets (events (sendPush env ctx) st) = [] /\
    c = stream_conn dp /\
    sendPush env ctx st = Returned None st2 /\
    snapshot (ph st2) = snap.
Proof.
  destruct (sendPush_run env ctx st) as (r & n & evs & h' & P & R).
  rewrite (events_sendPush env _ _ _ _ _ _ R), R.
  intro H.
  destruct P as [e1 O|e1 O|e1 err O Q|e1 dp' snap' O F|e1 dp' snap' O F
                |e1 dp' snap' e' O F];
    destruct (open_run_reads _ _ _ _ _ O) as (C & Rs & W & Op & _);
    unfold transmission, debug_unsupported in *; split_In;
    try discriminate;
    try (apply written_In in H; rewrite W in H; destruct H).
  injection H as <- -> ->.
  exists (e1 ++ [EvGetSnapshot snap; EvLock; EvSetSnapshot snap; EvUnlock]).
  eexists. repeat split.
  - now rewrite <- app_assoc.
  - rewrite opened_app, Op. reflexivity.
  - rewrite resets_app, Rs. reflexivity.
Qed.

(** X4.  With the snapshot mutex free, [sendPush] closes what it opens: in
    every execution, blocked ones included, the streams closed are the
    streams opened, there is at most one, and a stream written to or reset
    is that one. *)
Theorem sendPush_closes_what_it_opens ctx st :
  is_free (snapshotMu (ph st)) = true ->
  let evs := events (sendPush env ctx) st in
  closed evs = opened evs /\
  List.length (opened evs) <= 1 /\
  (forall dp, In dp (written evs) -> opened evs = [dp]) /\
  (forall dp, In dp (resets evs) -> opened evs = [dp]).
Proof.
  intros F evs. subst evs.
  destruct (sendPush_run env ctx st) as (r & n & evs & h' & P & R).
  rewrite (events_sendPush env _ _ _ _ _ _ R).
  destruct P as [e1 O|e1 O|e1 e O Q|e1 dp snap O F'|e1 dp snap O F'
                |e1 dp snap e O F'];
    destruct (open_run_reads _ _ _ _ _ O) as (C & Rs & W & Op & _);
    try congruence;
    rewrite ?opened_app, ?written_app, ?resets_app, ?closed_app,
      ?C, ?Rs, ?W, ?Op; simpl;
    repeat split; auto;
    try (intros ? [<- | []]; reflexivity);
    try (intros ? []).
Qed.

Lemma stored_same_mutex h snap :
  is_free (snapshotMu h) = true -> snapshotMu (stored h snap) = snapshotMu h.
Proof.
  unfold is_free, stored. destruct h as [c p [w r] sn ch]; simpl.
  destruct w; [discriminate | reflexivity].
Qed.

Lemma push_run_handler h ctx push r evs h' :
  push_run h ctx push r evs h' ->
  cancel h' = cancel h /\ pid h' = pid h /\ pushCh h' = pushCh h /\
  snapshotMu h' = snapshotMu h.
Proof.
  intros [e1 O|e1 O|e1 e O Q|e1 dp snap O F|e1 dp snap O F|e1 dp snap e O F];
    repeat split; auto using stored_same_mutex.
Qed.

(** X5.  Whatever happens, [sendPush] does not panic and leaves the
    semaphore as it found it; of the handler it changes the last sent
    snapshot at most: [cancel], [pid], the push channel and the state of
    the snapshot mutex are as before. *)
Theorem sendPush_invariants ctx st :
  let o := sendPush env ctx st in
  (forall v s, o <> Panicked v s) /\
  pushSemaphore (ids (final o)) = pushSemaphore (ids st) /\
  cancel (ph (final o)) = cancel (ph st) /\
  pid (ph (final o)) = pid (ph st) /\
  pushCh (ph (final o)) = pushCh (ph st) /\
  snapshotMu (ph (final o)) = snapshotMu (ph st) /\
  trace (ids (final o)) = trace (ids st) ++ events (sendPush env ctx) st.
Proof.
  intro o. subst o.
  destruct (sendPush_run env ctx st) as (r & n & evs & h' & P & R).
  rewrite (events_sendPush env _ _ _ _ _ _ R), R, final_outcome_of.
  destruct (push_run_handler _ _ _ _ _ _ P) as (A & B & C & D).
  repeat split; auto.
  intros v s. destruct r; discriminate.
Qed.

(** X6.  When the peerstore answers that the peer supports none of the
    protocols, [sendPush] returns nil without taking a semaphore slot,
    calling [NewStream] or writing, and leaves the handler as it was. *)
Theorem sendPush_unsupported_sends_nothing ctx st p ps :
  In (EvSupportsProtocols p ps [] None) (events (sendPush env ctx) st) ->
  exists st',
    sendPush env ctx st = Returned None st' /\
    ph st' = ph st /\
    acquires (events (sendPush env ctx) st) = 0 /\
    negotiations (events (sendPush env ctx) st) = 0 /\
    written (events (sendPush env ctx) st) = [].
Proof.
  destruct (sendPush_run env ctx st) as (r & n & evs & h' & P & R).
  rewrite (events_sendPush env _ _ _ _ _ _ R), R.
  intro H.
  assert (K : forall r1 e1,
             open_run (pid (ph st)) ctx [IDPush env] r1 e1 ->
             In (EvSupportsProtocols p ps [] None) e1 ->
             r1 = Some (inr errProtocolNotSupported) /\
             forallb passive e1 = true).
  { intros r1 e1 O I.
    destruct (open_run_In_lookup _ _ _ _ _ _ _ _ _ O I)
      as (_ & _ & [(_ & Q & Pv) | (Q & _)]); [auto | discriminate]. }
  destruct P as [e1 O|e1 O|e1 err O Q|e1 dp' snap' O F|e1 dp' snap' O F
                |e1 dp' snap' e' O F];
    unfold transmission, debug_unsupported in *; split_In;
    try discriminate;
    destruct (K _ _ O H) as (Q1 & Pv); try discriminate.
  - destruct (passive_nothing _ Pv) as (_ & W & _ & _ & A & _ & N).
    eexists. split; [reflexivity |].
    rewrite acquires_app, negotiations_app, written_app, W, A, N.
    repeat split.
  - injection Q1 as ->. discriminate.
Qed.

(** X8.  [NewStream] is called only at the end of one fixed sequence: the
    connections are listed and identify has completed on each, they are
    listed again inside [peerSupportsProtos] and identify has completed on
    each, the peerstore gave an answer that counts as support, and a
    semaphore slot was taken; the deferred [cancel] and the release of the
    slot follow. *)
Theorem openStream_negotiates_after_identify ctx protos st c p ps r :
  In (EvNewStream c p ps r) (events (openStream env ctx protos) st) ->
  exists cs1 cs2 sup err,
    events (openStream env ctx protos) st =
      EvConnsToPeer (pid (ph st)) cs1 :: identified InOpenStream cs1 ++
      EvConnsToPeer (pid (ph st)) cs2 ::
      identified InPeerSupportsProtos cs2 ++
      [EvSupportsProtocols (pid (ph st)) protos sup err;
       EvSemSend;
       EvNewStream c p ps r;
       EvCancel (timeout_ctx ctx);
       EvSemRecv] /\
    supported sup err = true.
Proof.
  destruct (openStream_run env ctx protos st) as (r0 & n & e & O & R).
  rewrite (events_openStream env _ _ _ _ _ _ R).
  intro H.
  destruct O as [cs w W|cs w why W|cs w e2 W P|cs w e2 W P|cs w e2 W P
                |cs w e2 x W P];
    unfold negotiation in *; split_In; try discriminate;
    try (destruct (waited_In _ _ _ _ _ W H) as [? [? | (? & ? & _)]];
         discriminate);
    try (destruct (psp_run_In _ _ _ _ _ P H)
           as [(? & ?) | [(? & ?) | [(? & ? & ? & _) | (? & ? & ? & _)]]];
         discriminate).
  injection H as <- <- <- <-.
  apply waited_all_inv in W. subst w.
  inversion P as [| | |cs' w' y sup W'|cs' w' sup e0 W']; subst;
    apply waited_all_inv in W'; subst w'.
  - exists cs, cs', (y :: sup), None. split; [| reflexivity].
    simpl. now rewrite <- !app_assoc.
  - exists cs, cs', sup, (Some e0). split; [| reflexivity].
    simpl. now rewrite <- !app_assoc.
Qed.

(** X9.  When the context's case fires in [openStream]'s own wait on a
    connection, that is the last thing [openStream] does: the connections
    listed after it are not waited on, and neither the second listing, the
    peerstore, the semaphore nor [NewStream] is reached. *)
Theorem openStream_cancel_stops_at_once ctx protos st c why :
  In (EvIdentifyWait InOpenStream c (SelDone why))
     (events (openStream env ctx protos) st) ->
  exists pre post,
    events (openStream env ctx protos) st =
      EvConnsToPeer (pid (ph st)) (pre ++ c :: post) ::
      identified InOpenStream pre ++
      [EvIdentifyWait InOpenStream c (SelDone why)].
Proof.
  destruct (openStream_run env ctx protos st) as (r0 & n & e & O & R).
  rewrite (events_openStream env _ _ _ _ _ _ R).
  intro H.
  destruct O as [cs w W|cs w why' W|cs w e2 W P|cs w e2 W P|cs w e2 W P
                |cs w e2 x W P];
    unfold negotiation in *; split_In; try discriminate;
    try (destruct (psp_run_In_done _ _ _ _ _ _ _ P H) as (Q & _);
         discriminate);
    try (destruct (waited_In _ _ _ _ _ W H) as [c' [Q | (why2 & Q & Q')]];
         discriminate).
  inversion W as [|pre c' post why2 Hcs Hr Hw|]; subst.
  split_In.
  - apply identified_In in H. destruct H as [? H]. discriminate.
  - injection H as <- <-. now exists pre, post.
Qed.

(** X12.  [peerSupportsProtos] only lists, waits and asks: in every
    execution it leaves the handler and the semaphore as they were and its
    trace holds nothing else.  When the peerstore is asked, it is asked
    last, once, after identify has completed on every connection listed,
    and the function returns what the answer amounts to. *)
Theorem peerSupportsProtos_only_asks ctx protos st :
  let o := peerSupportsProtos env ctx protos st in
  let evs := events (peerSupportsProtos env ctx protos) st in
  (forall v s, o <> Panicked v s) /\
  ph (final o) = ph st /\
  pushSemaphore (ids (final o)) = pushSemaphore (ids st) /\
  forallb passive evs = true /\
  (forall p ps sup err,
      In (EvSupportsProtocols p ps sup err) evs ->
      exists cs,
        evs = EvConnsToPeer (pid (ph st)) cs ::
              identified InPeerSupportsProtos cs ++
              [EvSupportsProtocols (pid (ph st)) protos sup err] /\
        value o = Some (supported sup err)).
Proof.
  intros o evs. subst o evs.
  destruct (peerSupportsProtos_run env ctx protos st) as (r & n & e & P & R).
  assert (E : events (peerSupportsProtos env ctx protos) st = e).
  { apply events_advance with (ph st) n. rewrite R. apply final_outcome_of. }
  rewrite E, R, final_outcome_of.
  split; [intros v s; destruct r; discriminate |].
  split; [reflexivity |]. split; [reflexivity |].
  split; [now apply passive_psp_run with (1 := P) |].
  intros p ps sup err H.
  destruct P as [cs w W|cs w why W|cs w W|cs w x sup' W|cs w sup' e0 W];
    split_In; try discriminate;
    try (destruct (waited_In _ _ _ _ _ W H) as [? [? | (? & ? & _)]];
         discriminate);
    injection H as <- <- <- <-; apply waited_all_inv in W; subst w;
    exists cs; split; reflexivity.
Qed.

(** *** Where [openStream] can block *)

Lemma wait_identified_Blocked s ctx cs : forall i i',
  wait_identified env s ctx cs i = Blocked i' ->
  exists t c, clock i <= t /\ IdentifyWait env t ctx c = SelNever.
Proof.
  induction cs as [|c cs IH]; intros i i' H.
  - discriminate.
  - cbn [wait_identified] in H. unfold bind at 1 in H.
    unfold select_IdentifyWait, bind, ask, emit, ret, block in H.
    destruct (IdentifyWait env (clock i) ctx c) as [|why|] eqn:E.
    + apply IH in H. destruct H as (t & c' & L & N). simpl in L.
      exists t, c'. split; [lia | assumption].
    + discriminate.
    + exists (clock i), c. split; [lia | assumption].
Qed.

Lemma on_ids_wait_Blocked s ctx cs st st' :
  on_ids (wait_identified env s ctx cs) st = Blocked st' ->
  exists t c, clock (ids st) <= t /\ IdentifyWait env t ctx c = SelNever.
Proof.
  unfold on_ids.
  destruct (wait_identified env s ctx cs (ids st)) eqn:E; try discriminate.
  intros _. now apply wait_identified_Blocked in E.
Qed.

Lemma peerSupportsProtos_Blocked ctx protos st st' :
  peerSupportsProtos env ctx protos st = Blocked st' ->
  exists t c, clock (ids st) <= t /\ IdentifyWait env t ctx c = SelNever.
Proof.
  unfold peerSupportsProtos.
  rewrite (bind_Returned _ _ st (ph st) st) by reflexivity.
  rewrite (bind_Returned _ _ _ _ _ (on_ids_ConnsToPeer env _ st)).
  unfold bind at 1.
  match goal with
  | |- context [on_ids (wait_identified env ?s ctx ?cs) ?st1] =>
      destruct (on_ids (wait_identified env s ctx cs) st1) as [r s1|v s1|s1]
        eqn:W
  end.
  - destruct r; [discriminate |].
    rewrite (bind_Returned _ _ _ _ _ (on_ids_SupportsProtocols env _ _ _)).
    cbv zeta. destruct (snd _); [discriminate |].
    destruct (Nat.eqb _ 0); discriminate.
  - discriminate.
  - intros _. apply on_ids_wait_Blocked in W.
    destruct W as (t & c & L & N). simpl in L.
    exists t, c. split; [lia | assumption].
Qed.

Lemma psp_run_lookups p protos r e :
  psp_run p protos r e ->
  lookups e = match r with Some true => 1 | None => 0 | _ => lookups e end.
Proof.
  intros [cs w W|cs w why W|cs w W|cs w x sup W|cs w sup e0 W];
    apply quiet_waited in W; destruct W as [_ L]; simpl;
    rewrite ?lookups_app, ?L; reflexivity.
Qed.

(** The executions of [openStream], with what the semaphore had to be. *)
Lemma openStream_run_sem ctx protos st :
  exists r n evs,
    open_run (pid (ph st)) ctx protos r evs /\
    openStream env ctx protos st = outcome_of r (advance st n evs) /\
    (negotiations evs = 1 -> has_room (pushSemaphore (ids st)) = true) /\
    (r = None ->
     (lookups evs = 0 /\
      exists t c, clock (ids st) <= t /\ IdentifyWait env t ctx c = SelNever)
     \/
     (lookups evs = 1 /\ has_room (pushSemaphore (ids st)) = false)).
Proof.
  unfold openStream.
  rewrite (bind_Returned _ _ st (ph st) st) by reflexivity.
  rewrite (bind_Returned _ _ _ _ _ (on_ids_ConnsToPeer env _ st)).
  set (p := pid (ph st)).
  set (cs := ConnsToPeer env (clock (ids st)) p).
  set (st1 := advance st 1 _).
  destruct (on_ids_wait_identified env InOpenStream ctx cs st1)
    as (r & n & w & W & R).
  rewrite (bind_outcome_of _ _ _ _ _ R).
  pose proof (passive_waited _ _ _ _ W) as Pw.
  pose proof (quiet_waited _ _ _ _ W) as [_ Lw].
  destruct r as [[why|]|].
  - exists (Some (inr (ctx_Err why))), (n + 1), (EvConnsToPeer p cs :: w).
    split; [now apply open_done |].
    split; [unfold ret, st1; now rewrite advance_advance |].
    split; [| discriminate].
    simpl. destruct (passive_nothing _ Pw) as (_ & _ & _ & _ & _ & _ & ->).
    discriminate.
  - destruct (peerSupportsProtos_run env ctx protos (advance st1 n w))
      as (b & m & e2 & P & R2).
    change (pid (ph (advance st1 n w))) with p in P.
    pose proof (passive_psp_run _ _ _ _ P) as Pe.
    pose proof (psp_run_lookups _ _ _ _ P) as Le.
    assert (Pall : forallb passive (EvConnsToPeer p cs :: w ++ e2) = true)
      by (simpl; now apply passive_app).
    rewrite (bind_outcome_of _ _ _ _ _ R2).
    destruct b as [[|]|].
    + cbn [negb].
      destruct (has_room (pushSemaphore (ids st))) eqn:Hsem.
      * pose proof (negotiation_run env ctx protos
                      (advance (advance st1 n w) m e2) Hsem) as N.
        cbv zeta in N.
        change (pid (ph (advance (advance st1 n w) m e2))) with p in N.
        set (x := NewStream env _ _ _ _) in N.
        exists (Some x), (1 + (m + (n + 1))),
          (EvConnsToPeer p cs :: w ++ e2 ++ negotiation p ctx protos x).
        split; [apply open_negotiated with (1 := W) (2 := P) |].
        split; [| split; [reflexivity | discriminate]].
        etransitivity; [exact N |].
        unfold st1. rewrite !advance_advance. simpl outcome_of.
        do 2 f_equal; simpl; try lia; now rewrite <- app_assoc.
      * exists None, (m + n + 1), (EvConnsToPeer p cs :: w ++ e2).
        split; [now apply open_sem_full |].
        split.
        -- rewrite (sem_full_blocks _ (advance (advance st1 n w) m e2) Hsem).
           unfold st1. now rewrite !advance_advance.
        -- split.
           ++ destruct (passive_nothing _ Pall)
                as (_ & _ & _ & _ & _ & _ & ->). discriminate.
           ++ intros _. right. split; [| reflexivity].
              simpl. now rewrite lookups_app, Lw, Le.
    + exists (Some (inr errProtocolNotSupported)), (m + n + 1),
        (EvConnsToPeer p cs :: w ++ e2).
      split; [now apply open_unsupported |].
      split; [unfold ret, st1; now rewrite !advance_advance |].
      split; [| discriminate].
      destruct (passive_nothing _ Pall) as (_ & _ & _ & _ & _ & _ & ->).
      discriminate.
    + exists None, (m + n + 1), (EvConnsToPeer p cs :: w ++ e2).
      split; [now apply open_check_never |].
      split; [unfold st1; now rewrite !advance_advance |].
      split.
      * destruct (passive_nothing _ Pall) as (_ & _ & _ & _ & _ & _ & ->).
        discriminate.
      * intros _. left. split.
        -- simpl. now rewrite lookups_app, Lw, Le.
        -- apply peerSupportsProtos_Blocked in R2.
           destruct R2 as (t & c & L & N). simpl in L.
           exists t, c. split; [lia | assumption].
  - exists None, (n + 1), (EvConnsToPeer p cs :: w).
    split; [now apply open_never |].
    split; [unfold st1; now rewrite advance_advance |].
    split.
    + simpl. destruct (passive_nothing _ Pw) as (_ & _ & _ & _ & _ & _ & ->).
      discriminate.
    + intros _. left. split; [exact Lw |].
      apply on_ids_wait_Blocked in R.
      destruct R as (t & c & L & N). simpl in L.
      exists t, c. split; [lia | assumption].
Qed.

Lemma lookups_In p ps sup err evs :
  In (EvSupportsProtocols p ps sup err) evs -> lookups evs <> 0.
Proof.
  induction evs as [|ev evs IH]; [intros [] |].
  destruct ev; simpl; intros [H|H]; try discriminate; auto.
Qed.

(** X7.  A failing peerstore lookup does not stop the push: with room in
    the semaphore, an [openStream] whose lookup answered with an error goes
    on to call [NewStream], once, for the handler's peer and the protocols
    given, and returns what it returned. *)
Theorem openStream_lookup_error_fails_open ctx protos st p ps sup e :
  In (EvSupportsProtocols p ps sup (Some e))
     (events (openStream env ctx protos) st) ->
  has_room (pushSemaphore (ids st)) = true ->
  exists r st',
    openStream env ctx protos st = Returned r st' /\
    negotiations (events (openStream env ctx protos) st) = 1 /\
    In (EvNewStream (newstream_ctx ctx) (pid (ph st)) protos r)
       (events (openStream env ctx protos) st).
Proof.
  destruct (openStream_run_sem ctx protos st) as (r & n & evs & O & R & _ & S2).
  rewrite (events_openStream env _ _ _ _ _ _ R), R.
  intros H Room.
  destruct (open_run_In_lookup _ _ _ _ _ _ _ _ _ O H)
    as (_ & _ & [(Q & _) | (_ & [(-> & _) | (x & pre & -> & Pp & ->)])]).
  - discriminate.
  - destruct (S2 eq_refl) as [(L & _) | (_ & F)].
    + now apply lookups_In in H.
    + congruence.
  - exists x. eexists. split; [reflexivity |].
    destruct (passive_nothing _ Pp) as (_ & _ & _ & _ & _ & _ & N).
    split.
    + rewrite negotiations_app, N. reflexivity.
    + apply in_or_app. right. unfold negotiation.
      rewrite ConvertFromStrings_id. right. now left.
Qed.



(** X13.  [openStream] never panics, never touches the handler and never
    writes to, resets or closes a stream; it calls [NewStream] at most
    once, and a stream was opened exactly when it is the one returned. *)
Theorem openStream_returns_what_it_opens ctx protos st :
  let o := openStream env ctx protos st in
  let evs := events (openStream env ctx protos) st in
  (forall v s, o <> Panicked v s) /\
  ph (final o) = ph st /\
  closed evs = [] /\ resets evs = [] /\ written evs = [] /\
  negotiations evs <= 1 /\
  opened evs = match value o with Some (inl dp) => [dp] | _ => [] end.
Proof.
  intros o evs. subst o evs.
  destruct (openStream_run env ctx protos st) as (r & n & evs & O & R).
  rewrite (events_openStream env _ _ _ _ _ _ R), R, final_outcome_of.
  destruct (open_run_reads _ _ _ _ _ O) as (C & Rs & W & Op & N & _).
  repeat split; auto.
  - intros v s. destruct r; discriminate.
  - rewrite Op. now destruct r.
Qed.

End MoreProperties.

(** X14.  [start] on a stopped handler followed by [stop] brings the
    handler back to where it was: one goroutine was spawned on a fresh
    child of the caller's context, and that child is the context [stop]
    cancels. *)
Theorem start_then_stop ctx onExit st :
  cancel (ph st) = None ->
  let child := WithCancel ctx (clock (ids st)) in
  exists st1 st2,
    start ctx onExit st = Returned tt st1 /\
    cancel (ph st1) = Some child /\
    stop st1 = Returned None st2 /\
    ph st2 = ph st /\
    pushSemaphore (ids st2) = pushSemaphore (ids st) /\
    trace (ids st2) = trace (ids st) ++ [EvGo child onExit; EvCancel child].
Proof.
  destruct st as [[c p mu sn ch] [sem clk tr]]. simpl. intros ->.
  do 2 eexists. split; [reflexivity |]. simpl.
  split; [reflexivity |]. split; [reflexivity |]. simpl.
  repeat split. now rewrite <- app_assoc.
Qed.

(** ** The event loop *)

Lemma kept_refl st : kept st st.
Proof. unfold kept. repeat split; auto. Qed.

Lemma kept_trans a b c : kept a b -> kept b c -> kept a c.
Proof.
  unfold kept.
  intros (A1' & A2' & A3 & A4 & A5 & A6 & A7) (B1 & B2 & B3 & B4 & B5 & B6 & B7).
  repeat split; try congruence; lia.
Qed.

Lemma kept_marker_taken st : kept st (marker_taken st).
Proof. unfold kept, marker_taken; simpl. repeat split; auto; lia. Qed.

Lemma exits_app a b : exits (a ++ b) = exits a + exits b.
Proof. induction a as [|[] a IH]; simpl; congruence. Qed.

Lemma received_app a b : received (a ++ b) = received a + received b.
Proof. induction a as [|[] a IH]; simpl; congruence. Qed.

Lemma warnings_app a b : warnings (a ++ b) = warnings a ++ warnings b.
Proof. induction a as [|[] a IH]; simpl; congruence. Qed.

Lemma logged_app {A} (m : M LoopState A) l added :
  loop_log (final (m l)) = loop_log l ++ added -> logged m l = added.
Proof. intro H. unfold logged. rewrite H. apply skipn_length_app. Qed.

Lemma push_run_error h ctx push e evs h' :
  push_run h ctx push (Some (Some e)) evs h' -> push_error e.
Proof.
  inversion 1; subst; eexists; [left | right]; reflexivity.
Qed.

Section LoopProperties.

Variable env : Env.
Variable sched : nat -> Context -> loop_case.

(** What [sendPush] leaves of the state it is entered in. *)
Lemma sendPush_kept ctx st :
  kept st (final (sendPush env ctx st)) /\
  (forall v s, sendPush env ctx st <> Panicked v s) /\
  (forall e s, sendPush env ctx st = Returned (Some e) s -> push_error e).
Proof.
  destruct (sendPush_run env ctx st) as (r & n & evs & h' & P & R).
  rewrite R, final_outcome_of.
  destruct (push_run_handler _ _ _ _ _ _ P) as (A & B & C & D).
  split; [| split].
  - unfold kept; simpl. rewrite A, B, C, D. repeat split; auto; lia.
  - intros v s. destruct r; discriminate.
  - intros e s H. destruct r as [[e'|]|]; try discriminate.
    injection H as <- _. now apply push_run_error in P.
Qed.

(** One turn of the loop on a received marker. *)
Lemma loop_for_push fuel ctx l :
  sched (clock (ids (handler_state l))) ctx = LoopPush ->
  loop_for env sched (S fuel) ctx l =
  let lg := loop_log l ++ [RecvPush] in
  match sendPush env ctx (marker_taken (handler_state l)) with
  | Returned None st2 => loop_for env sched fuel ctx (mkLoop st2 lg)
  | Returned (Some e) st2 =>
      loop_for env sched fuel ctx
        (mkLoop st2
           (lg ++ [Warnw "failed to send Identify Push" (pid (ph st2)) e]))
  | Panicked v st2 => Panicked v (mkLoop st2 lg)
  | Blocked st2 => Blocked (mkLoop st2 lg)
  end.
Proof.
  intro Sc. destruct l as [[h i] lg]. simpl in *.
  unfold bind at 1. unfold on_state at 1, on_ids, ask. simpl. rewrite Sc.
  unfold bind, on_state, pushCh_recv, bind, get_ph, put_ph, note; simpl.
  unfold marker_taken; simpl.
  destruct (sendPush env ctx _) as [[e|] st2|v st2|st2]; reflexivity.
Qed.

Lemma loop_for_run ctx fuel : forall l,
  let o := loop_for env sched fuel ctx l in
  (forall v s, o <> Panicked v s) /\
  kept (handler_state l) (handler_state (final o)) /\
  (value o = Some true ->
   exists t, clock (ids (handler_state l)) <= t /\
             t < clock (ids (handler_state (final o))) /\
             sched t ctx = LoopDone) /\
  exists added,
    loop_log (final o) = loop_log l ++ added /\
    exits added = 0 /\
    received added <= fuel /\
    List.length (warnings added) <= received added /\
    (forall msg p e,
        In (Warnw msg p e) added ->
        msg = "failed to send Identify Push" /\
        p = pid (ph (handler_state l)) /\ push_error e).
Proof.
  induction fuel as [|fuel IH]; intros l o; subst o.
  - simpl. split; [discriminate |]. split; [apply kept_refl |].
    split; [discriminate |]. exists []. rewrite app_nil_r.
    split; [reflexivity |]. split; [reflexivity |].
    split; [apply Nat.le_refl |]. split; [apply Nat.le_refl |].
    intros ? ? ? [].
  - destruct (sched (clock (ids (handler_state l))) ctx) eqn:Sc.
    + rewrite (loop_for_push fuel ctx l Sc). cbv zeta.
      destruct (sendPush_kept ctx (marker_taken (handler_state l)))
        as (K & NP & PE).
      pose proof (kept_marker_taken (handler_state l)) as K0.
      destruct (sendPush env ctx (marker_taken (handler_state l)))
        as [[e|] st2|v st2|st2] eqn:SP; simpl in K.
      * specialize (PE e st2 eq_refl).
        match goal with
        | |- context [loop_for env sched fuel ctx ?l2] =>
            destruct (IH l2) as (I1 & I2 & I3 & added & I4 & I5 & I6 & I7 & I8)
        end.
        simpl in I2, I3, I4, I8.
        pose proof (kept_trans _ _ _ K0 K) as K1.
        split; [exact I1 |].
        split; [exact (kept_trans _ _ _ K1 I2) |].
        split.
        { intro V. destruct (I3 V) as (t & L & U & D).
          exists t. repeat split; auto.
          destruct K1 as (_ & _ & _ & _ & _ & _ & C). lia. }
        exists (RecvPush ::
                Warnw "failed to send Identify Push" (pid (ph st2)) e ::
                added).
        split; [rewrite I4, <- !app_assoc; reflexivity |].
        split; [exact I5 |]. split; [simpl; lia |]. split; [simpl; lia |].
        intros msg p e' [H | [H | H]]; [discriminate | |].
        -- injection H as <- <- <-.
           destruct K1 as (_ & _ & Kp & _). auto.
        -- destruct (I8 _ _ _ H) as (M1 & M2 & M3).
           destruct K1 as (_ & _ & Kp & _).
           split; [| split]; congruence.
      * match goal with
        | |- context [loop_for env sched fuel ctx ?l2] =>
            destruct (IH l2) as (I1 & I2 & I3 & added & I4 & I5 & I6 & I7 & I8)
        end.
        simpl in I2, I3, I4, I8.
        pose proof (kept_trans _ _ _ K0 K) as K1.
        split; [exact I1 |].
        split; [exact (kept_trans _ _ _ K1 I2) |].
        split.
        { intro V. destruct (I3 V) as (t & L & U & D).
          exists t. repeat split; auto.
          destruct K1 as (_ & _ & _ & _ & _ & _ & C). lia. }
        exists (RecvPush :: added).
        split; [rewrite I4, <- !app_assoc; reflexivity |].
        split; [exact I5 |]. split; [simpl; lia |]. split; [simpl; lia |].
        intros msg p e' [H | H]; [discriminate |].
        destruct (I8 _ _ _ H) as (M1 & M2 & M3).
        destruct K1 as (_ & _ & Kp & _).
        split; [| split]; congruence.
      * now destruct (NP v st2).
      * simpl. split; [discriminate |].
        split; [exact (kept_trans _ _ _ K0 K) |].
        split; [discriminate |].
        exists [RecvPush].
        split; [reflexivity |]. split; [reflexivity |].
        split; [simpl; lia |]. split; [simpl; lia |].
        intros msg p e' [H | []]; discriminate.
    + destruct l as [[h i] lg]. simpl in *.
      unfold bind, on_state, on_ids, ask, ret; simpl. rewrite Sc. simpl.
      split; [discriminate |].
      split; [unfold kept; simpl; repeat split; auto; lia |].
      split.
      { intros _. exists (clock i). repeat split; auto; lia. }
      exists []. rewrite app_nil_r.
      split; [reflexivity |]. split; [reflexivity |].
      split; [simpl; lia |]. split; [simpl; lia |].
      intros ? ? ? [].
    + destruct l as [[h i] lg]. simpl in *.
      unfold bind, on_state, on_ids, ask, block; simpl. rewrite Sc. simpl.
      split; [discriminate |].
      split; [unfold kept; simpl; repeat split; auto; lia |].
      split; [discriminate |].
      exists []. rewrite app_nil_r.
      split; [reflexivity |]. split; [reflexivity |].
      split; [simpl; lia |]. split; [simpl; lia |].
      intros ? ? ? [].
Qed.

(** [loop] is its [for] statement, with [onExit] called when that is left. *)
Lemma loop_run fuel ctx onExit l :
  let o := loop env sched fuel ctx onExit l in
  let o' := loop_for env sched fuel ctx l in
  (forall v s, o <> Panicked v s) /\
  value o = value o' /\
  handler_state (final o) = handler_state (final o') /\
  exists added,
    loop_log (final o') = loop_log l ++ added /\
    logged (loop env sched fuel ctx onExit) l =
      added ++ match value o' with
               | Some true => [OnExit onExit]
               | _ => []
               end.
Proof.
  intros o o'. subst o o'.
  destruct (loop_for_run ctx fuel l) as (NP & _ & _ & added & L & _).
  cbv zeta in *. unfold logged, loop, bind.
  destruct (loop_for env sched fuel ctx l) as [[|] s|v s|s]; simpl in *;
    try (now destruct (NP v s));
    (split; [discriminate |]); repeat split;
    exists added; (split; [exact L |]); rewrite L, ?app_nil_r, <- ?app_assoc;
    apply skipn_length_app.
Qed.

(** X15.  The loop never panics, and [onExit] is called exactly when the
    [for] statement is left: then once, as the last entry of the log;
    while the loop is blocked or still running, not at all. *)
Theorem loop_calls_onExit_on_return fuel ctx onExit l :
  let o := loop env sched fuel ctx onExit l in
  (forall v s, o <> Panicked v s) /\
  exists body,
    exits body = 0 /\
    logged (loop env sched fuel ctx onExit) l =
      body ++ match value o with
              | Some true => [OnExit onExit]
              | _ => []
              end.
Proof.
  intro o. subst o.
  destruct (loop_run fuel ctx onExit l) as (NP & V & _ & added & L & G).
  destruct (loop_for_run ctx fuel l) as (_ & _ & _ & added' & L' & X & _).
  cbv zeta in *.
  assert (added' = added) by (rewrite L' in L; now apply app_inv_head in L).
  subst added'. split; [exact NP |].
  exists added. split; [exact X |]. now rewrite V.
Qed.

(** X16.  The loop returns only because its context is done: when it has
    returned, there is a time, from its start on, at which the [select]
    was answered by the context's case.  A push that fails does not end
    it. *)
Theorem loop_returns_only_when_done fuel ctx onExit l s :
  loop env sched fuel ctx onExit l = Returned true s ->
  exists t,
    clock (ids (handler_state l)) <= t /\
    t < clock (ids (handler_state s)) /\
    sched t ctx = LoopDone.
Proof.
  intro H.
  destruct (loop_run fuel ctx onExit l) as (_ & V & F & _).
  destruct (loop_for_run ctx fuel l) as (_ & _ & D & _).
  cbv zeta in *. rewrite H in V, F. simpl in V, F.
  rewrite F. apply D. now rewrite <- V.
Qed.

(** X17.  However long it runs, the loop leaves the semaphore, the
    handler's [cancel], peer, and snapshot mutex as they were, and the
    push channel with its capacity and no more markers than it had. *)
Theorem loop_keeps_handler fuel ctx onExit l :
  kept (handler_state l)
       (handler_state (final (loop env sched fuel ctx onExit l))).
Proof.
  destruct (loop_run fuel ctx onExit l) as (_ & _ & F & _).
  destruct (loop_for_run ctx fuel l) as (_ & K & _).
  cbv zeta in *. now rewrite F.
Qed.

(** X18.  The loop warns only about pushes that failed: every warning in
    its log carries the fixed message, the handler's peer and one of the
    two errors of [sendPush], and there are no more warnings than markers
    received. *)
Theorem loop_warns_failed_pushes fuel ctx onExit l :
  let added := logged (loop env sched fuel ctx onExit) l in
  List.length (warnings added) <= received added /\
  received added <= fuel /\
  forall msg p e,
    In (Warnw msg p e) added ->
    msg = "failed to send Identify Push" /\
    p = pid (ph (handler_state l)) /\
    push_error e.
Proof.
  intro added. subst added.
  destruct (loop_run fuel ctx onExit l) as (_ & _ & _ & added & L & G).
  destruct (loop_for_run ctx fuel l)
    as (_ & _ & _ & added' & L' & _ & R & W & I).
  cbv zeta in *.
  assert (added' = added) by (rewrite L' in L; now apply app_inv_head in L).
  subst added'. rewrite G.
  rewrite warnings_app, received_app, length_app.
  destruct (value (loop_for env sched fuel ctx l)) as [[|]|]; simpl;
    rewrite ?app_nil_r; (split; [lia |]); (split; [lia |]);
    intros msg p e H; try (apply in_app_or in H; destruct H as [H | [H | []]]);
    try discriminate; now apply I.
Qed.

End LoopProperties.

(** ** The further properties on the scenarios *)

(** X1 on the scenario of a negotiation that runs into its deadline. *)
Lemma sendPush_open_failure_witness :
  let st1 := final (openStream env_timeout Background [push_id] st0) in
  openStream env_timeout Background [IDPush env_timeout] st0
    = Returned (inr DeadlineExceeded) st1 /\
  DeadlineExceeded <> errProtocolNotSupported /\
  sendPush env_timeout Background st0
    = Returned (Some (Errorf "failed to open push stream" DeadlineExceeded))
               st1 /\
  ph st1 = ph st0 /\
  opened (events (sendPush env_timeout Background) st0) = [] /\
  written (events (sendPush env_timeout Background) st0) = [].
Proof.
  intro st1.
  assert (H : openStream env_timeout Background [IDPush env_timeout] st0
              = Returned (inr DeadlineExceeded) st1)
    by (vm_compute; reflexivity).
  assert (N : DeadlineExceeded <> errProtocolNotSupported) by discriminate.
  split; [exact H |]. split; [exact N |].
  exact (sendPush_open_failure env_timeout Background st0 DeadlineExceeded
           st1 H N).
Defined.

(** X2 on the scenario of a failing write. *)
Lemma sendPush_error_kinds_witness :
  let err := Errorf "failed to send push message" (errOther "stream reset") in
  let st' := final (sendPush env_write_fails Background st0) in
  let evs := events (sendPush env_write_fails Background) st0 in
  sendPush env_write_fails Background st0 = Returned (Some err) st' /\
  ((exists e,
       err = Errorf "failed to open push stream" e /\
       e <> errProtocolNotSupported /\
       opened evs = [] /\ written evs = [] /\
       snapshot (ph st') = snapshot (ph st0))
   \/
   (exists e dp,
       err = Errorf "failed to send push message" e /\
       opened evs = [dp] /\ written evs = [dp] /\
       resets evs = [dp] /\ closed evs = [dp])).
Proof.
  intros err st' evs.
  assert (H : sendPush env_write_fails Background st0
              = Returned (Some err) st')
    by (vm_compute; reflexivity).
  split; [exact H |].
  exact (sendPush_error_kinds env_write_fails Background st0 err st' H).
Defined.

(** X3 on the scenario of a successful push. *)
Lemma sendPush_write_success_closes_witness :
  In (EvWrite 7 S1 dp7 None) (events (sendPush env_ok Background) st0) /\
  exists pre st2,
    events (sendPush env_ok Background) st0
      = pre ++ [EvWrite 7 S1 dp7 None; EvClose dp7] /\
    opened pre = [dp7] /\
    resets (events (sendPush env_ok Background) st0) = [] /\
    7 = stream_conn dp7 /\
    sendPush env_ok Background st0 = Returned None st2 /\
    snapshot (ph st2) = S1.
Proof.
  assert (H : In (EvWrite 7 S1 dp7 None)
                 (events (sendPush env_ok Background) st0)) by in_trace.
  split; [exact H |].
  exact (sendPush_write_success_closes env_ok Background st0 7 S1 dp7 H).
Defined.

(** X4 on the scenario of a failing write. *)
Lemma sendPush_closes_what_it_opens_witness :
  let evs := events (sendPush env_write_fails Background) st0 in
  is_free (snapshotMu (ph st0)) = true /\
  closed evs = opened evs /\
  List.length (opened evs) <= 1 /\
  (forall dp, In dp (written evs) -> opened evs = [dp]) /\
  (forall dp, In dp (resets evs) -> opened evs = [dp]).
Proof.
  intro evs.
  assert (F : is_free (snapshotMu (ph st0)) = true) by reflexivity.
  split; [exact F |].
  exact (sendPush_closes_what_it_opens env_write_fails Background st0 F).
Defined.

(** X6 on the scenario of a peer known not to support the push. *)
Lemma sendPush_unsupported_sends_nothing_witness :
  In (EvSupportsProtocols "QmPeer" [push_id] [] None)
     (events (sendPush env_unsupported Background) st0) /\
  exists st',
    sendPush env_unsupported Background st0 = Returned None st' /\
    ph st' = ph st0 /\
    acquires (events (sendPush env_unsupported Background) st0) = 0 /\
    negotiations (events (sendPush env_unsupported Background) st0) = 0 /\
    written (events (sendPush env_unsupported Background) st0) = [].
Proof.
  assert (H : In (EvSupportsProtocols "QmPeer" [push_id] [] None)
                 (events (sendPush env_unsupported Background) st0))
    by in_trace.
  split; [exact H |].
  exact (sendPush_unsupported_sends_nothing env_unsupported Background st0
           "QmPeer" [push_id] H).
Defined.

(** X7 on the scenario of a failing lookup. *)
Lemma openStream_lookup_error_fails_open_witness :
  In (EvSupportsProtocols "QmPeer" [push_id] []
        (Some (errOther "invalid peer ID")))
     (events (openStream env_lookup_error Background [push_id]) st0) /\
  has_room (pushSemaphore (ids st0)) = true /\
  exists r st',
    openStream env_lookup_error Background [push_id] st0 = Returned r st' /\
    negotiations (events (openStream env_lookup_error Background [push_id])
                         st0) = 1 /\
    In (EvNewStream (newstream_ctx Background) (pid (ph st0)) [push_id] r)
       (events (openStream env_lookup_error Background [push_id]) st0).
Proof.
  assert (H : In (EvSupportsProtocols "QmPeer" [push_id] []
                    (Some (errOther "invalid peer ID")))
                 (events (openStream env_lookup_error Background [push_id])
                         st0)) by in_trace.
  assert (R : has_room (pushSemaphore (ids st0)) = true) by reflexivity.
  split; [exact H |]. split; [exact R |].
  exact (openStream_lookup_error_fails_open env_lookup_error Background
           [push_id] st0 _ _ _ _ H R).
Defined.

(** X8 on the scenario of a successful push. *)
Lemma openStream_negotiates_after_identify_witness :
  let c := newstream_ctx Background in
  In (EvNewStream c "QmPeer" [push_id] (inl dp7))
     (events (openStream env_ok Background [push_id]) st0) /\
  exists cs1 cs2 sup err,
    events (openStream env_ok Background [push_id]) st0 =
      EvConnsToPeer (pid (ph st0)) cs1 :: identified InOpenStream cs1 ++
      EvConnsToPeer (pid (ph st0)) cs2 ::
      identified InPeerSupportsProtos cs2 ++
      [EvSupportsProtocols (pid (ph st0)) [push_id] sup err;
       EvSemSend;
       EvNewStream c "QmPeer" [push_id] (inl dp7);
       EvCancel (timeout_ctx Background);
       EvSemRecv] /\
    supported sup err = true.
Proof.
  intro c.
  assert (H : In (EvNewStream c "QmPeer" [push_id] (inl dp7))
                 (events (openStream env_ok Background [push_id]) st0))
    by in_trace.
  split; [exact H |].
  exact (openStream_negotiates_after_identify env_ok Background [push_id] st0
           c "QmPeer" [push_id] (inl dp7) H).
Defined.

(** X9 on the scenario of a context cancelled during the wait on
    connection 7. *)
Lemma openStream_cancel_stops_at_once_witness :
  In (EvIdentifyWait InOpenStream 7 (SelDone byCancel))
     (events (openStream env_cancelled Background [push_id]) st0) /\
  exists pre post,
    events (openStream env_cancelled Background [push_id]) st0 =
      EvConnsToPeer (pid (ph st0)) (pre ++ 7 :: post) ::
      identified InOpenStream pre ++
      [EvIdentifyWait InOpenStream 7 (SelDone byCancel)].
Proof.
  assert (H : In (EvIdentifyWait InOpenStream 7 (SelDone byCancel))
                 (events (openStream env_cancelled Background [push_id]) st0))
    by in_trace.
  split; [exact H |].
  exact (openStream_cancel_stops_at_once env_cancelled Background [push_id]
           st0 7 byCancel H).
Defined.



(** X12 on the scenario of a failing lookup. *)
Lemma peerSupportsProtos_only_asks_witness :
  let evs := events (peerSupportsProtos env_lookup_error Background [push_id])
                    st0 in
  In (EvSupportsProtocols "QmPeer" [push_id] []
        (Some (errOther "invalid peer ID"))) evs /\
  exists cs,
    evs = EvConnsToPeer (pid (ph st0)) cs ::
          identified InPeerSupportsProtos cs ++
          [EvSupportsProtocols (pid (ph st0)) [push_id] []
             (Some (errOther "invalid peer ID"))] /\
    value (peerSupportsProtos env_lookup_error Background [push_id] st0)
      = Some (supported [] (Some (errOther "invalid peer ID"))).
Proof.
  intro evs.
  assert (H : In (EvSupportsProtocols "QmPeer" [push_id] []
                    (Some (errOther "invalid peer ID"))) evs) by in_trace.
  split; [exact H |].
  destruct (peerSupportsProtos_only_asks env_lookup_error Background
              [push_id] st0) as (_ & _ & _ & _ & K).
  exact (K _ _ _ _ H).
Defined.

(** X14 on the stopped handler. *)
Lemma start_then_stop_witness :
  let child := WithCancel Background (clock (ids st0)) in
  cancel (ph st0) = None /\
  exists st1 st2,
    start Background "deregister" st0 = Returned tt st1 /\
    cancel (ph st1) = Some child /\
    stop st1 = Returned None st2 /\
    ph st2 = ph st0 /\
    pushSemaphore (ids st2) = pushSemaphore (ids st0) /\
    trace (ids st2)
      = trace (ids st0) ++ [EvGo child "deregister"; EvCancel child].
Proof.
  intro child.
  assert (H : cancel (ph st0) = None) by reflexivity.
  split; [exact H |].
  exact (start_then_stop Background "deregister" st0 H).
Defined.

(** X16 on a loop that receives a marker, fails to push, and is then
    cancelled. *)
Lemma loop_returns_only_when_done_witness :
  let s := final (loop env_timeout sched_push_then_done 5 Background
                       "deregister" l0) in
  loop env_timeout sched_push_then_done 5 Background "deregister" l0
    = Returned true s /\
  exists t,
    clock (ids (handler_state l0)) <= t /\
    t < clock (ids (handler_state s)) /\
    sched_push_then_done t Background = LoopDone.
Proof.
  intro s.
  assert (H : loop env_timeout sched_push_then_done 5 Background "deregister"
                   l0 = Returned true s) by (vm_compute; reflexivity).
  split; [exact H |].
  exact (loop_returns_only_when_done env_timeout sched_push_then_done 5
           Background "deregister" l0 s H).
Defined.

(** X18 on a loop whose pushes all fail. *)
Lemma loop_warns_failed_pushes_witness :
  let added := logged (loop env_timeout sched_pushes 3 Background "deregister")
                      l0 in
  let e := Errorf "failed to open push stream" DeadlineExceeded in
  In (Warnw "failed to send Identify Push" "QmPeer" e) added /\
  List.length (warnings added) <= received added /\
  received added <= 3 /\
  "QmPeer" = pid (ph (handler_state l0)) /\
  push_error e.
Proof.
  intros added e.
  assert (H : In (Warnw "failed to send Identify Push" "QmPeer" e) added)
    by in_trace.
  destruct (loop_warns_failed_pushes env_timeout sched_pushes 3 Background
              "deregister" l0) as (A & B & K).
  destruct (K _ _ _ H) as (_ & P & Q).
  split; [exact H |]. split; [exact A |]. split; [exact B |].
  split; [exact P | exact Q].
Defined.

End Identify.
